(** * Hunter: a verification development of the Battlesnake decision core

    Shallow embedding of [src/main.py] (functions [is_safe],
    [get_safe_moves], [find_path], [get_move_from_path], [seek_food],
    [chase_smaller_snake] and [move]).

    Modelling conventions.
    - The game state dictionary is a record; every body part
      [{"x": x, "y": y}] and every path tuple [(x, y)] is a pair of
      integers [coord].
    - Python exceptions (an [IndexError] or [KeyError]) are the [Raise]
      outcome of the monad [M].  Loops of the source that are [while]
      loops run on fuel; running out of fuel is the separate outcome
      [OutOfFuel], and the development proves that the fuel chosen for
      [find_path] is never exhausted, so that outcome never stands in for
      a result of the program.
    - [heapq] is modelled as a multiset of entries (a list): [heappush]
      adds an entry, [heappop] removes one occurrence of the least entry in
      Python's tuple order.  Entries that compare equal are equal values,
      so which copy the real binary heap removes is not observable.
    - [random.choice] takes the random draw [r] as an argument: it
      returns element [r mod len l] of [l] and raises on an empty list.
      Quantifying over [r] covers every choice the generator can make. *)

From Stdlib Require Import ZArith String List Lia.
From stdpp Require Import base gmap list strings.

Open Scope Z_scope.

(* ------------------------------------------------------------------ *)
(** ** The outcome monad: a value, a Python exception, or no fuel left *)

Inductive M (A : Type) : Type :=
| Ret (a : A)
| Raise
| OutOfFuel.
Arguments Ret {A} a.
Arguments Raise {A}.
Arguments OutOfFuel {A}.

Definition bind {A B} (m : M A) (k : A → M B) : M B :=
  match m with
  | Ret a => k a
  | Raise => Raise
  | OutOfFuel => OutOfFuel
  end.

Notation "x <- m ;; k" := (bind m (λ x, k))
  (at level 100, m at next level, right associativity).


Lemma bind_Ret {A B} (a : A) (k : A → M B) : bind (Ret a) k = k a.
Proof. reflexivity. Qed.

(* ------------------------------------------------------------------ *)
(** ** Data model *)

Abbreviation coord := (Z * Z)%type.

Record Snake := mkSnake {
  snake_id : string;
  body : list coord;      (* body[0] is the head, body[-1] the tail *)
  health : Z
}.

Record Board := mkBoard {
  width : Z;
  height : Z;
  food : list coord;
  snakes : list Snake
}.

Record GameState := mkGameState {
  board : Board;
  you : Snake
}.

(** Python list indexing [l[i]] (for [i >= 0]), [l[-1]] and [l[:-1]]. *)
Definition py_index {A} (l : list A) (i : nat) : M A :=
  match l !! i with Some a => Ret a | None => Raise end.

Definition py_last {A} (l : list A) : M A :=
  match last l with Some a => Ret a | None => Raise end.

Definition py_init {A} (l : list A) : list A := removelast l.

Definition coord_eqb (a b : coord) : bool := bool_decide (a = b).

Definition str_in (s : string) (l : list string) : bool :=
  existsb (String.eqb s) l.

(** [DIRECTIONS] and [POSSIBLE_MOVES]; the dict keeps insertion order. *)
Definition DIRECTIONS : list (string * (Z * Z)) :=
  [("up", (0, 1)); ("down", (0, -1)); ("left", (-1, 0)); ("right", (1, 0))]%string.

Definition POSSIBLE_MOVES : list string := map fst DIRECTIONS.

Definition LOW_HEALTH_THRESHOLD : Z := 30.
Definition LENGTH_ADVANTAGE_THRESHOLD : nat := 2.

(* ------------------------------------------------------------------ *)
(** ** [is_safe] *)

(** The loop over [game_state["board"]["snakes"]]; the head-to-head test
    reads [snake["body"][0]] only when the length test holds ([and]
    short-circuits). *)
Fixpoint check_other_snakes (x y : Z) (gs : GameState) (ss : list Snake) : M bool :=
  match ss with
  | [] => Ret true
  | snake :: ss' =>
      if negb (String.eqb (snake_id snake) (snake_id (you gs))) then
        if existsb (λ part, coord_eqb part (x, y)) (py_init (body snake)) then Ret false
        else if (length (body (you gs)) <=? length (body snake))%nat then
          h <- py_index (body snake) 0 ;;
          if Z.abs (h.1 - x) + Z.abs (h.2 - y) =? 1 then Ret false
          else check_other_snakes x y gs ss'
        else check_other_snakes x y gs ss'
      else check_other_snakes x y gs ss'
  end.

Definition is_safe (x y : Z) (gs : GameState) : M bool :=
  let board_width := width (board gs) in
  let board_height := height (board gs) in
  let my_body := body (you gs) in
  if (x <? 0) || (y <? 0) || (board_width <=? x) || (board_height <=? y) then Ret false
  else if existsb (λ part, coord_eqb part (x, y)) (py_init my_body) then Ret false
  else check_other_snakes x y gs (snakes (board gs)).

(* ------------------------------------------------------------------ *)
(** ** [get_safe_moves] *)

Definition moving_backwards (mv : string) (my_head my_neck : coord) : bool :=
  (String.eqb mv "up" && (my_head.2 <? my_neck.2))
  || (String.eqb mv "down" && (my_neck.2 <? my_head.2))
  || (String.eqb mv "left" && (my_neck.1 <? my_head.1))
  || (String.eqb mv "right" && (my_head.1 <? my_neck.1)).

Fixpoint safe_moves_loop (gs : GameState) (my_head my_neck : coord)
    (dirs : list (string * (Z * Z))) : M (list string) :=
  match dirs with
  | [] => Ret []
  | (mv, (dx, dy)) :: dirs' =>
      if moving_backwards mv my_head my_neck then safe_moves_loop gs my_head my_neck dirs'
      else
        b <- is_safe (my_head.1 + dx) (my_head.2 + dy) gs ;;
        rest <- safe_moves_loop gs my_head my_neck dirs' ;;
        Ret (if b then mv :: rest else rest)
  end.

Definition get_safe_moves (gs : GameState) : M (list string) :=
  my_head <- py_index (body (you gs)) 0 ;;
  my_neck <- py_index (body (you gs)) 1 ;;
  safe_moves_loop gs my_head my_neck DIRECTIONS.

Definition manhattan_distance (a b : coord) : Z :=
  Z.abs (a.1 - b.1) + Z.abs (a.2 - b.2).

(* ------------------------------------------------------------------ *)
(** ** [heapq] on entries [(f_score, (x, y))] *)

Abbreviation entry := (Z * coord)%type.

(** Python's tuple order: priority first, then [x], then [y]. *)
Definition entry_lt (a b : entry) : bool :=
  (a.1 <? b.1)
  || ((a.1 =? b.1) && ((a.2.1 <? b.2.1) || ((a.2.1 =? b.2.1) && (a.2.2 <? b.2.2)))).

Fixpoint heap_min (m : entry) (h : list entry) : entry :=
  match h with
  | [] => m
  | e :: h' => heap_min (if entry_lt e m then e else m) h'
  end.

Fixpoint remove_one (e : entry) (h : list entry) : list entry :=
  match h with
  | [] => []
  | e' :: h' => if decide (e = e') then h' else e' :: remove_one e h'
  end.

Definition heappop (h : list entry) : option (entry * list entry) :=
  match h with
  | [] => None
  | e :: h' => let m := heap_min e h' in Some (m, remove_one m h)
  end.

Definition heappush (h : list entry) (e : entry) : list entry := e :: h.

(* ------------------------------------------------------------------ *)
(** ** [find_path]: A* search

    The search is written once over an abstract safety oracle [safe]
    (in the source, [is_safe(_, _, game_state)]).  The [f_score]
    dictionary of the source is only written, never read (the heap carries
    the priorities), so the state keeps [heap], [came_from] and
    [g_score].  The extra field [expanded] is ghost state: the list of
    nodes popped from the heap, in order, used to count node expansions. *)

Record AState := mkAState {
  heap : list entry;
  came_from : gmap coord coord;
  g_score : gmap coord Z;
  expanded : list coord
}.

Section AStar.

Variable safe : Z → Z → M bool.

(** [get_neighbors(pos)]: the safe cells among the four offsets, in the
    order of [DIRECTIONS.values()].  The source consumes this generator
    lazily inside the [for] loop; [is_safe] does not read the search
    state, so computing the whole list first gives the same results and
    the same exceptions. *)
Fixpoint neighbors_loop (x y : Z) (ds : list (Z * Z)) : M (list coord) :=
  match ds with
  | [] => Ret []
  | (dx, dy) :: ds' =>
      b <- safe (x + dx) (y + dy) ;;
      rest <- neighbors_loop x y ds' ;;
      Ret (if b then (x + dx, y + dy) :: rest else rest)
  end.

Definition get_neighbors (pos : coord) : M (list coord) :=
  neighbors_loop pos.1 pos.2 (map snd DIRECTIONS).

(** [g_score[current]]: a [KeyError] when absent. *)
Definition g_lookup (g : gmap coord Z) (c : coord) : M Z :=
  match g !! c with Some v => Ret v | None => Raise end.

(** The body of [for neighbor in get_neighbors(current)]. *)
Fixpoint relax (goal current : coord) (ns : list coord) (st : AState) : M AState :=
  match ns with
  | [] => Ret st
  | neighbor :: ns' =>
      gc <- g_lookup (g_score st) current ;;
      let tentative_g_score := gc + 1 in
      let better :=
        match g_score st !! neighbor with
        | None => true
        | Some gn => tentative_g_score <? gn
        end in
      if better then
        relax goal current ns'
          (mkAState
             (heappush (heap st)
                (tentative_g_score + manhattan_distance neighbor goal, neighbor))
             (<[neighbor := current]> (came_from st))
             (<[neighbor := tentative_g_score]> (g_score st))
             (expanded st))
      else relax goal current ns' st
  end.

(** [while current in came_from: path.append(current);
    current = came_from[current]], then [path.append(start)] and
    [path[::-1]]. *)
Fixpoint reconstruct (fuel : nat) (cf : gmap coord coord) (start current : coord)
    (path : list coord) : M (list coord) :=
  match fuel with
  | O => OutOfFuel
  | S fuel' =>
      match cf !! current with
      | Some prev => reconstruct fuel' cf start prev (path ++ [current])
      | None => Ret (rev (path ++ [start]))
      end
  end.

(** [while heap: ...]; the result is the returned path (or [None])
    together with the ghost list of expanded nodes. *)
Fixpoint astar_loop (fuel path_fuel : nat) (start goal : coord) (st : AState)
    : M (option (list coord) * list coord) :=
  match fuel with
  | O => OutOfFuel
  | S fuel' =>
      match heappop (heap st) with
      | None => Ret (None, expanded st)
      | Some ((_, current), heap') =>
          let st1 := mkAState heap' (came_from st) (g_score st) (expanded st ++ [current]) in
          if decide (current = goal) then
            p <- reconstruct path_fuel (came_from st) start current [] ;;
            Ret (Some p, expanded st1)
          else
            ns <- get_neighbors current ;;
            st2 <- relax goal current ns st1 ;;
            astar_loop fuel' path_fuel start goal st2
      end
  end.

Definition astar_init (start goal : coord) : AState :=
  mkAState [(0, start)] ∅ {[start := 0]} [].

Definition astar (fuel path_fuel : nat) (start goal : coord)
    : M (option (list coord) * list coord) :=
  astar_loop fuel path_fuel start goal (astar_init start goal).

End AStar.

(** Fuel for the two [while] loops of [find_path]; [L] bounds the number of
    distinct cells the search can touch (the board and the start). *)
Definition cells_bound (gs : GameState) : nat :=
  S (Z.to_nat (width (board gs)) * Z.to_nat (height (board gs))).

Definition search_fuel (gs : GameState) : nat :=
  2 * cells_bound gs * cells_bound gs + 2.

Definition find_path_traced (start goal : coord) (gs : GameState)
    : M (option (list coord) * list coord) :=
  astar (λ x y, is_safe x y gs) (search_fuel gs) (cells_bound gs) start goal.

Definition find_path (start goal : coord) (gs : GameState) : M (option (list coord)) :=
  r <- find_path_traced start goal gs ;; Ret r.1.

(* ------------------------------------------------------------------ *)
(** ** [get_move_from_path]; the function falls off its end (returns
    [None]) when [path[1]] equals the head. *)

Definition get_move_from_path (path : list coord) (my_head : coord) : option string :=
  match path with
  | _ :: next_move :: _ =>
      if my_head.1 <? next_move.1 then Some "right"%string
      else if next_move.1 <? my_head.1 then Some "left"%string
      else if my_head.2 <? next_move.2 then Some "up"%string
      else if next_move.2 <? my_head.2 then Some "down"%string
      else None
  | _ => None
  end.

(** [if path: move = get_move_from_path(path, my_head); if move in
    safe_moves: ...]: the move when the path is non-empty and its move is
    a member of [safe_moves]. *)
Definition path_move (path : option (list coord)) (my_head : coord)
    (safe_moves : list string) : option string :=
  match path with
  | Some (p :: ps) =>
      match get_move_from_path (p :: ps) my_head with
      | Some mv => if str_in mv safe_moves then Some mv else None
      | None => None
      end
  | _ => None
  end.

(* ------------------------------------------------------------------ *)
(** ** [seek_food] *)

(** Python's [min(iterable, key=...)]: the first item of least key (an
    item replaces the current one only when its key is strictly less). *)
Fixpoint py_min_by {A} (key : A → Z) (best : A) (l : list A) : A :=
  match l with
  | [] => best
  | a :: l' => py_min_by key (if key a <? key best then a else best) l'
  end.

Definition seek_food (gs : GameState) (safe_moves : list string) : M (option string) :=
  my_head <- py_index (body (you gs)) 0 ;;
  match food (board gs) with
  | [] => Ret None
  | f0 :: fs =>
      let closest_food :=
        py_min_by (λ f, Z.abs (f.1 - my_head.1) + Z.abs (f.2 - my_head.2)) f0 fs in
      path_to_food <- find_path my_head closest_food gs ;;
      Ret (path_move path_to_food my_head safe_moves)
  end.

(* ------------------------------------------------------------------ *)
(** ** [chase_smaller_snake] *)

Fixpoint chase_loop (gs : GameState) (safe_moves : list string) (my_head : coord)
    (my_length : nat) (ss : list Snake) : M (option string) :=
  match ss with
  | [] => Ret None
  | snake :: ss' =>
      if (length (body snake) <? my_length)%nat then
        tail <- py_last (body snake) ;;
        path_to_tail <- find_path my_head tail gs ;;
        match path_move path_to_tail my_head safe_moves with
        | Some mv => Ret (Some mv)
        | None => chase_loop gs safe_moves my_head my_length ss'
        end
      else chase_loop gs safe_moves my_head my_length ss'
  end.

Definition chase_smaller_snake (gs : GameState) (safe_moves : list string)
    : M (option string) :=
  my_head <- py_index (body (you gs)) 0 ;;
  chase_loop gs safe_moves my_head (length (body (you gs))) (snakes (board gs)).

(* ------------------------------------------------------------------ *)
(** ** [move] *)

Definition random_choice {A} (r : nat) (l : list A) : M A :=
  match l with
  | [] => Raise
  | _ => py_index l (r mod length l)%nat
  end.

Definition py_max (l : list nat) : nat :=
  match l with
  | [] => 0%nat
  | x :: xs => fold_left Nat.max xs x
  end.

Definition other_snakes_lengths (gs : GameState) : list nat :=
  map (λ snake, length (body snake))
    (List.filter (λ snake, negb (String.eqb (snake_id snake) (snake_id (you gs))))
       (snakes (board gs))).

Definition max_snake_length (gs : GameState) : nat :=
  match other_snakes_lengths gs with
  | [] => 0%nat
  | l => py_max l
  end.

(** The test of lines 282-285. *)
Definition food_tier_enabled (gs : GameState) : bool :=
  (health (you gs) <? LOW_HEALTH_THRESHOLD)
  || (length (body (you gs)) <=? max_snake_length gs + LENGTH_ADVANTAGE_THRESHOLD)%nat.

(** Lines 291-297: the chase tier, then a random safe move. *)
Definition move_tail (r : nat) (gs : GameState) (safe_moves : list string) : M string :=
  chase_move <- chase_smaller_snake gs safe_moves ;;
  match chase_move with
  | Some mv => Ret mv
  | None => random_choice r safe_moves
  end.

(** [move(game_state)]: the returned token (the source wraps it in
    [{"move": ...}]); [r] is the random draw. *)
Definition move (r : nat) (gs : GameState) : M string :=
  safe_moves <- get_safe_moves gs ;;
  match safe_moves with
  | [] => random_choice r POSSIBLE_MOVES
  | _ =>
      if food_tier_enabled gs then
        food_move <- seek_food gs safe_moves ;;
        match food_move with
        | Some mv => Ret mv
        | None => move_tail r gs safe_moves
        end
      else move_tail r gs safe_moves
  end.

(* ------------------------------------------------------------------ *)
(** ** Concrete snapshots *)

Definition mk_you (b : list coord) : Snake := mkSnake "you" b 100.

(** 2 x 5 board, the start (1,4) and an unreachable goal (0,0) covered by
    another snake's stacked body. *)
Definition gs_restack : GameState :=
  let me := mk_you [(1, 4); (1, 4); (1, 4)] in
  mkGameState (mkBoard 2 5 [] [me; mkSnake "other" [(0, 0); (0, 0)] 100]) me.

(** 3 x 3 empty board, agent at (1,1). *)
Definition gs_tie : GameState :=
  let me := mk_you [(1, 1); (1, 0)] in
  mkGameState (mkBoard 3 3 [] [me]) me.

(** The same board with one food item at (0,2). *)
Definition gs_food : GameState :=
  let me := mk_you [(1, 1); (1, 0)] in
  mkGameState (mkBoard 3 3 [(0, 2)] [me]) me.

(** 5 x 5 board: the agent (length 3) and two shorter snakes; the tail
    (0,0) of the first one is walled in by the two snakes' necks and
    heads. *)
Definition gs_chase : GameState :=
  let me := mk_you [(3, 3); (3, 2); (3, 1)] in
  mkGameState
    (mkBoard 5 5 []
       [me; mkSnake "a" [(0, 1); (0, 0)] 100; mkSnake "b" [(1, 0); (2, 0)] 100]) me.

(** The same board with food under the agent's head (1,1) and at (0,2). *)
Definition gs_food_head : GameState :=
  let me := mk_you [(1, 1); (1, 0)] in
  mkGameState (mkBoard 3 3 [(0, 2); (1, 1)] [me]) me.

(** An agent of one segment, which has no neck. *)
Definition gs_short : GameState :=
  let me := mk_you [(1, 1)] in
  mkGameState (mkBoard 3 3 [] [me]) me.

(** The verdict of [is_safe] on a cell as a boolean ([false] when the
    call raises). *)
Definition is_safe_b (gs : GameState) (c : coord) : bool :=
  match is_safe c.1 c.2 gs with Ret b => b | _ => false end.

(** The snapshot with the list [game_state["board"]["snakes"]] replaced. *)
Definition with_snakes (gs : GameState) (ss : list Snake) : GameState :=
  mkGameState (mkBoard (width (board gs)) (height (board gs)) (food (board gs)) ss) (you gs).

(* ------------------------------------------------------------------ *)
(** ** Facts about the Python helpers and [is_safe] *)

Lemma existsb_coord_in (l : list coord) (c : coord) :
  existsb (λ part, coord_eqb part c) l = true ↔ c ∈ l.
Proof.
  rewrite existsb_exists. split.
  - intros (p & Hin & Heq). unfold coord_eqb in Heq.
    apply bool_decide_eq_true in Heq. subst. by apply list_elem_of_In.
  - intros Hin. exists c. split; [by apply list_elem_of_In|].
    unfold coord_eqb. by apply bool_decide_eq_true.
Qed.

(** A snake other than the agent that makes [(x, y)] unsafe: its non-tail
    body covers the cell, or its head is one step away and it is at least
    as long as the agent. *)
Definition unsafe_by_snake (x y : Z) (gs : GameState) (s : Snake) : Prop :=
  snake_id s ≠ snake_id (you gs) ∧
  ((x, y) ∈ removelast (body s) ∨
   ((length (body (you gs)) <= length (body s))%nat ∧
    ∃ hd tl, body s = hd :: tl ∧ Z.abs (hd.1 - x) + Z.abs (hd.2 - y) = 1)).

Lemma check_other_snakes_spec (x y : Z) (gs : GameState) (ss : list Snake) :
  body (you gs) ≠ [] →
  ∃ b, check_other_snakes x y gs ss = Ret b ∧
       (b = false ↔ ∃ s, s ∈ ss ∧ unsafe_by_snake x y gs s).
Proof.
  intros Hne. induction ss as [|s ss IH]; simpl.
  - exists true. split; [done|]. split; [discriminate|].
    intros (s & Hs & _). by apply elem_of_nil in Hs.
  - destruct IH as (b & Hb & Hiff).
    destruct (String.eqb (snake_id s) (snake_id (you gs))) eqn:Eid; simpl.
    + apply String.eqb_eq in Eid. exists b. split; [done|]. rewrite Hiff.
      split.
      * intros (s' & Hs' & Hu). exists s'. split; [by right|done].
      * intros (s' & Hs' & Hu). apply elem_of_cons in Hs' as [->|Hs'].
        -- destruct Hu as [Hid _]. congruence.
        -- by exists s'.
    + apply String.eqb_neq in Eid.
      destruct (existsb _ (py_init (body s))) eqn:Ex.
      * exists false. split; [done|]. split; [|done]. intros _.
        exists s. split; [by left|]. split; [done|]. left.
        by apply existsb_coord_in.
      * assert (Hnot : (x, y) ∉ removelast (body s)).
        { intros Hin. apply existsb_coord_in in Hin. unfold py_init in Ex. congruence. }
        destruct (Nat.leb (length (body (you gs))) (length (body s))) eqn:Len.
        -- apply Nat.leb_le in Len.
           destruct (body s) as [|hd tl] eqn:Eb.
           { destruct (body (you gs)); [done|]. simpl in Len. lia. }
           unfold py_index. simpl.
           destruct (Z.eqb (Z.abs (hd.1 - x) + Z.abs (hd.2 - y)) 1) eqn:Ed.
           ++ apply Z.eqb_eq in Ed. exists false. split; [done|].
              split; [|done]. intros _. exists s. split; [by left|].
              split; [done|]. right. split; [by rewrite Eb|].
              exists hd, tl. by rewrite Eb.
           ++ apply Z.eqb_neq in Ed. exists b. split; [done|]. rewrite Hiff.
              split.
              ** intros (s' & Hs' & Hu). exists s'. split; [by right|done].
              ** intros (s' & Hs' & Hu). apply elem_of_cons in Hs' as [->|Hs'].
                 { destruct Hu as [_ [Hin|(_ & hd' & tl' & Eb' & Hd)]].
                   - by rewrite Eb in Hin.
                   - rewrite Eb in Eb'. injection Eb' as <- <-. done. }
                 by exists s'.
        -- apply Nat.leb_gt in Len. exists b. split; [done|]. rewrite Hiff.
           split.
           ++ intros (s' & Hs' & Hu). exists s'. split; [by right|done].
           ++ intros (s' & Hs' & Hu). apply elem_of_cons in Hs' as [->|Hs'].
              { destruct Hu as [_ [Hin|(Hl & _)]]; [done|lia]. }
              by exists s'.
Qed.

Lemma is_safe_ret (x y : Z) (gs : GameState) :
  body (you gs) ≠ [] → ∃ b, is_safe x y gs = Ret b.
Proof.
  intros Hne. unfold is_safe.
  destruct (_ || _ || _ || _); [by eexists|].
  destruct (existsb _ _); [by eexists|].
  destruct (check_other_snakes_spec x y gs (snakes (board gs)) Hne) as (b & Hb & _).
  by exists b.
Qed.

Lemma is_safe_not_out_of_fuel (x y : Z) (gs : GameState) : is_safe x y gs ≠ OutOfFuel.
Proof.
  unfold is_safe.
  destruct (_ || _ || _ || _); [done|]. destruct (existsb _ _); [done|].
  induction (snakes (board gs)) as [|s ss IH]; simpl; [done|].
  destruct (negb _); [|done]. destruct (existsb _ _); [done|].
  destruct (Nat.leb _ _); [|done]. unfold py_index.
  destruct (body s !! 0%nat); simpl; [|done]. by destruct (Z.eqb _ _).
Qed.

Lemma is_safe_true_bounds (x y : Z) (gs : GameState) :
  is_safe x y gs = Ret true →
  0 <= x < width (board gs) ∧ 0 <= y < height (board gs).
Proof.
  unfold is_safe. intros H.
  destruct ((x <? 0) || (y <? 0) || (width (board gs) <=? x) || (height (board gs) <=? y)) eqn:E;
    [discriminate|].
  repeat rewrite orb_false_iff in E. destruct E as [[[E1 E2] E3] E4].
  apply Z.ltb_ge in E1, E2. apply Z.leb_gt in E3, E4. lia.
Qed.

Lemma safe_moves_loop_spec (gs : GameState) (my_head my_neck : coord)
    (dirs : list (string * (Z * Z))) :
  body (you gs) ≠ [] →
  ∃ ms, safe_moves_loop gs my_head my_neck dirs = Ret ms ∧
        ms `sublist_of` map fst dirs ∧
        ∀ mv, mv ∈ ms → ∃ d, (mv, d) ∈ dirs ∧
          moving_backwards mv my_head my_neck = false ∧
          is_safe (my_head.1 + d.1) (my_head.2 + d.2) gs = Ret true.
Proof.
  intros Hne. induction dirs as [|[mv [dx dy]] dirs IH]; simpl.
  - exists []. split; [done|]. split; [constructor|]. intros mv Hin.
    by apply elem_of_nil in Hin.
  - destruct IH as (ms & Hms & Hsub & Hall).
    destruct (moving_backwards mv my_head my_neck) eqn:Eb.
    + exists ms. split; [done|]. split; [by constructor|].
      intros mv' Hin. destruct (Hall mv' Hin) as (d & Hd & H1 & H2).
      exists d. split; [by right|done].
    + destruct (is_safe_ret (my_head.1 + dx) (my_head.2 + dy) gs Hne) as [b Hb].
      rewrite Hb. simpl. rewrite Hms. simpl. destruct b.
      * exists (mv :: ms). split; [done|]. split; [by constructor|].
        intros mv' Hin. apply elem_of_cons in Hin as [->|Hin].
        -- exists (dx, dy). split; [by left|]. done.
        -- destruct (Hall mv' Hin) as (d & Hd & H1 & H2).
           exists d. split; [by right|done].
      * exists ms. split; [done|]. split; [by constructor|].
        intros mv' Hin. destruct (Hall mv' Hin) as (d & Hd & H1 & H2).
        exists d. split; [by right|done].
Qed.

Lemma get_safe_moves_ret (gs : GameState) :
  (2 <= length (body (you gs)))%nat →
  ∃ my_head my_neck rest ms,
    body (you gs) = my_head :: my_neck :: rest ∧
    get_safe_moves gs = Ret ms ∧ ms `sublist_of` POSSIBLE_MOVES ∧
    ∀ mv, mv ∈ ms → ∃ d, (mv, d) ∈ DIRECTIONS ∧
      moving_backwards mv my_head my_neck = false ∧
      is_safe (my_head.1 + d.1) (my_head.2 + d.2) gs = Ret true.
Proof.
  intros Hlen. unfold get_safe_moves.
  destruct (body (you gs)) as [|hd [|nk rest]] eqn:Eb; simpl in Hlen; try lia.
  destruct (safe_moves_loop_spec gs hd nk DIRECTIONS) as (ms & Hms & Hsub & Hall).
  { by rewrite Eb. }
  exists hd, nk, rest, ms. split; [done|].
  unfold py_index. simpl. split; [done|]. split; [done|]. done.
Qed.

(* ------------------------------------------------------------------ *)
(** ** Facts about the heap *)

(** [e1 <= e2] in Python's tuple order. *)
Definition entry_le (a b : entry) : Prop :=
  a.1 < b.1 ∨ (a.1 = b.1 ∧ (a.2.1 < b.2.1 ∨ (a.2.1 = b.2.1 ∧ a.2.2 <= b.2.2))).

Lemma entry_lt_false (a b : entry) : entry_lt a b = false ↔ entry_le b a.
Proof.
  destruct a as [fa [xa ya]], b as [fb [xb yb]]. unfold entry_lt, entry_le. simpl.
  destruct (Z.ltb_spec fa fb), (Z.eqb_spec fa fb), (Z.ltb_spec xa xb),
    (Z.eqb_spec xa xb), (Z.ltb_spec ya yb); simpl; split; intros; try done; lia.
Qed.

Lemma entry_lt_true (a b : entry) : entry_lt a b = true → entry_le a b.
Proof.
  destruct a as [fa [xa ya]], b as [fb [xb yb]]. unfold entry_lt, entry_le. simpl.
  destruct (Z.ltb_spec fa fb), (Z.eqb_spec fa fb), (Z.ltb_spec xa xb),
    (Z.eqb_spec xa xb), (Z.ltb_spec ya yb); simpl; intros; try done; lia.
Qed.

Lemma entry_le_trans (a b c : entry) : entry_le a b → entry_le b c → entry_le a c.
Proof. unfold entry_le. lia. Qed.

Lemma entry_le_refl (a : entry) : entry_le a a.
Proof. unfold entry_le. lia. Qed.

Lemma heap_min_spec (m : entry) (h : list entry) :
  heap_min m h ∈ m :: h ∧ ∀ e, e ∈ m :: h → entry_le (heap_min m h) e.
Proof.
  revert m. induction h as [|e h IH]; intros m; simpl.
  - split; [by left|]. intros e He. apply elem_of_cons in He as [->|He];
      [apply entry_le_refl|by apply elem_of_nil in He].
  - destruct (IH (if entry_lt e m then e else m)) as [Hin Hle].
    split.
    + apply elem_of_cons in Hin as [Hin|Hin].
      * destruct (entry_lt e m); rewrite Hin; [right; left|left].
      * by right; right.
    + assert (Hm : entry_le (if entry_lt e m then e else m) m ∧
                   entry_le (if entry_lt e m then e else m) e).
      { destruct (entry_lt e m) eqn:E.
        - split; [by apply entry_lt_true|apply entry_le_refl].
        - split; [apply entry_le_refl|by apply entry_lt_false]. }
      intros e' He'. apply elem_of_cons in He' as [->|He'].
      * eapply entry_le_trans; [apply Hle; by left|apply Hm].
      * apply elem_of_cons in He' as [->|He'].
        -- eapply entry_le_trans; [apply Hle; by left|apply Hm].
        -- apply Hle. by right.
Qed.

Lemma remove_one_sub (e x : entry) (h : list entry) : x ∈ remove_one e h → x ∈ h.
Proof.
  induction h as [|e' h IH]; simpl; [done|].
  destruct (decide (e = e')); [by right|].
  intros Hx. apply elem_of_cons in Hx as [->|Hx]; [by left|right; auto].
Qed.

Lemma remove_one_keep (e x : entry) (h : list entry) : x ∈ h → x ≠ e → x ∈ remove_one e h.
Proof.
  induction h as [|e' h IH]; simpl; [by intros Hx; apply elem_of_nil in Hx|].
  intros Hx Hne. apply elem_of_cons in Hx as [->|Hx].
  - destruct (decide (e = e')); [congruence|by left].
  - destruct (decide (e = e')); [done|right; auto].
Qed.

Lemma remove_one_length (e : entry) (h : list entry) :
  e ∈ h → S (length (remove_one e h)) = length h.
Proof.
  induction h as [|e' h IH]; simpl; [by intros Hx; apply elem_of_nil in Hx|].
  intros Hx. destruct (decide (e = e')); [done|].
  apply elem_of_cons in Hx as [->|Hx]; [done|]. simpl. by rewrite IH.
Qed.

Lemma heappop_spec (h h' : list entry) (e : entry) :
  heappop h = Some (e, h') →
  e ∈ h ∧ (∀ x, x ∈ h → entry_le e x) ∧ (∀ x, x ∈ h' → x ∈ h) ∧
  (∀ x, x ∈ h → x ≠ e → x ∈ h') ∧ S (length h') = length h.
Proof.
  unfold heappop. destruct h as [|m t]; [discriminate|]. intros [= <- <-].
  destruct (heap_min_spec m t) as [Hin Hle].
  split; [done|]. split; [done|].
  split; [intros x Hx; exact (remove_one_sub (heap_min m t) x (m :: t) Hx)|].
  split; [intros x Hx Hne; exact (remove_one_keep (heap_min m t) x (m :: t) Hx Hne)|].
  exact (remove_one_length (heap_min m t) (m :: t) Hin).
Qed.

Lemma heappop_none (h : list entry) : heappop h = None → h = [].
Proof. by destruct h. Qed.

(* ------------------------------------------------------------------ *)
(** ** Counting assigned cells and the termination measure *)

Definition offsets : list (Z * Z) := map snd DIRECTIONS.

Definition step (c : coord) (d : Z * Z) : coord := (c.1 + d.1, c.2 + d.2).

Lemma offsets_cases (d : Z * Z) :
  d ∈ offsets → d = (0, 1) ∨ d = (0, -1) ∨ d = (-1, 0) ∨ d = (1, 0).
Proof.
  unfold offsets, DIRECTIONS. simpl. intros Hd.
  repeat (apply elem_of_cons in Hd as [Hd|Hd]; [tauto|]). by apply elem_of_nil in Hd.
Qed.

Lemma step_ne (c : coord) (d : Z * Z) : d ∈ offsets → step c d ≠ c.
Proof.
  intros Hd. destruct c as [x y].
  apply offsets_cases in Hd as [-> | [-> | [-> | ->]]]; unfold step; simpl;
    intros [=]; lia.
Qed.

Lemma step_manhattan (a b : coord) (d : Z * Z) :
  d ∈ offsets → manhattan_distance a b <= 1 + manhattan_distance (step a d) b.
Proof.
  intros Hd. destruct a as [x y], b as [u v]. unfold manhattan_distance, step.
  apply offsets_cases in Hd as [-> | [-> | [-> | ->]]]; simpl; lia.
Qed.

Definition assigned (g : gmap coord Z) (c : coord) : bool :=
  match g !! c with Some _ => true | None => false end.

Fixpoint nassigned (g : gmap coord Z) (l : list coord) : nat :=
  match l with
  | [] => 0%nat
  | c :: l' => ((if assigned g c then 1 else 0) + nassigned g l')%nat
  end.

(** The potential of a cell: its g-score, or [B] while it has none. *)
Definition gv (B : nat) (g : gmap coord Z) (c : coord) : nat :=
  match g !! c with Some v => Z.to_nat v | None => B end.

Fixpoint gsum (B : nat) (g : gmap coord Z) (l : list coord) : nat :=
  match l with
  | [] => 0%nat
  | c :: l' => (gv B g c + gsum B g l')%nat
  end.

Lemma nassigned_le_length (g : gmap coord Z) (l : list coord) :
  (nassigned g l <= length l)%nat.
Proof. induction l as [|c l IH]; simpl; [lia|]. destruct (assigned g c); lia. Qed.

Lemma nassigned_lt_length (g : gmap coord Z) (l : list coord) (c : coord) :
  c ∈ l → assigned g c = false → (nassigned g l < length l)%nat.
Proof.
  induction l as [|c' l IH]; simpl; [by intros Hc; apply elem_of_nil in Hc|].
  intros Hc Ha. pose proof (nassigned_le_length g l).
  apply elem_of_cons in Hc as [->|Hc].
  - rewrite Ha. lia.
  - specialize (IH Hc Ha). destruct (assigned g c'); lia.
Qed.

Lemma nassigned_mono (g g' : gmap coord Z) (l : list coord) :
  (∀ c, assigned g c = true → assigned g' c = true) →
  (nassigned g l <= nassigned g' l)%nat.
Proof.
  intros Hm. induction l as [|c l IH]; simpl; [lia|].
  destruct (assigned g c) eqn:E; [rewrite (Hm c E)|destruct (assigned g' c)]; lia.
Qed.

Lemma nassigned_strict (g g' : gmap coord Z) (l : list coord) (c : coord) :
  (∀ c, assigned g c = true → assigned g' c = true) →
  c ∈ l → assigned g c = false → assigned g' c = true →
  (nassigned g l < nassigned g' l)%nat.
Proof.
  intros Hm. induction l as [|c' l IH]; simpl; [by intros Hc; apply elem_of_nil in Hc|].
  intros Hc Ha Ha'. pose proof (nassigned_mono g g' l Hm).
  apply elem_of_cons in Hc as [->|Hc].
  - rewrite Ha, Ha'. lia.
  - specialize (IH Hc Ha Ha').
    destruct (assigned g c') eqn:E; [rewrite (Hm c' E)|destruct (assigned g' c')]; lia.
Qed.

Lemma gsum_le (B : nat) (g g' : gmap coord Z) (l : list coord) :
  (∀ c, (gv B g' c <= gv B g c)%nat) → (gsum B g' l <= gsum B g l)%nat.
Proof. intros H. induction l as [|c l IH]; simpl; [lia|]. specialize (H c). lia. Qed.

Lemma gsum_lt (B : nat) (g g' : gmap coord Z) (l : list coord) (c : coord) :
  (∀ c, (gv B g' c <= gv B g c)%nat) → c ∈ l → (gv B g' c < gv B g c)%nat →
  (gsum B g' l < gsum B g l)%nat.
Proof.
  intros H. induction l as [|c' l IH]; simpl; [by intros Hc; apply elem_of_nil in Hc|].
  intros Hc Hlt. pose proof (gsum_le B g g' l H). pose proof (H c').
  apply elem_of_cons in Hc as [->|Hc]; [lia|]. specialize (IH Hc Hlt). lia.
Qed.

Lemma gsum_bound (B : nat) (g : gmap coord Z) (l : list coord) :
  (∀ c, c ∈ l → (gv B g c <= B)%nat) → (gsum B g l <= length l * B)%nat.
Proof.
  induction l as [|c l IH]; simpl; [lia|]. intros H.
  assert (gv B g c <= B)%nat by (apply H; by left).
  assert (gsum B g l <= length l * B)%nat by (apply IH; intros c' Hc'; apply H; by right).
  lia.
Qed.

(* ------------------------------------------------------------------ *)
(** ** Paths and the A* invariant *)

Section AStarProofs.

Variable safe : Z → Z → M bool.

Definition safe_cell (c : coord) : Prop := safe c.1 c.2 = Ret true.

(** [walk a b p]: [p] is a sequence of cells from [a] to [b], each one a
    step of [DIRECTIONS] from the previous one, and every cell except the
    first passes the oracle. *)
Inductive walk : coord → coord → list coord → Prop :=
| walk_here (a : coord) : walk a a [a]
| walk_step (a b : coord) (p : list coord) (d : Z * Z) :
    d ∈ offsets → safe_cell (step a d) → walk (step a d) b p → walk a b (a :: p).

Lemma walk_snoc (a b : coord) (p : list coord) (d : Z * Z) :
  walk a b p → d ∈ offsets → safe_cell (step b d) → walk a (step b d) (p ++ [step b d]).
Proof.
  induction 1 as [a|a b p d' Hd' Hs Hw IH]; intros Hd Hsafe; simpl.
  - apply (walk_step _ _ _ d); [done|done|]. constructor.
  - apply (walk_step _ _ _ d'); [done|done|]. by apply IH.
Qed.

Lemma walk_manhattan (a b : coord) (p : list coord) :
  walk a b p → manhattan_distance a b <= Z.of_nat (length p) - 1.
Proof.
  induction 1 as [a|a b p d Hd Hs Hw IH].
  - unfold manhattan_distance. simpl. lia.
  - pose proof (step_manhattan a b d Hd). simpl length. lia.
Qed.

Lemma walk_ends (a b : coord) (p : list coord) :
  walk a b p → head p = Some a ∧ last p = Some b.
Proof.
  induction 1 as [a|a b p d Hd Hs Hw [IH1 IH2]]; [done|].
  split; [done|]. destruct p as [|c p]; [done|]. rewrite last_cons. by rewrite IH2.
Qed.

Lemma walk_last_safe (a b : coord) (p : list coord) :
  walk a b p → b ≠ a → safe_cell b.
Proof.
  induction 1 as [a|a b p d Hd Hs Hw IH]; [done|]. intros Hne.
  destruct (decide (b = step a d)) as [->|Hne']; [done|]. by apply IH.
Qed.

Lemma neighbors_loop_spec (x y : Z) (ds : list (Z * Z)) (ns : list coord) :
  neighbors_loop safe x y ds = Ret ns →
  ∀ n, n ∈ ns ↔ ∃ d, d ∈ ds ∧ n = (x + d.1, y + d.2) ∧ safe (x + d.1) (y + d.2) = Ret true.
Proof.
  revert ns. induction ds as [|[dx dy] ds IH]; simpl; intros ns Hns n.
  - injection Hns as <-. split; [by intros Hn; apply elem_of_nil in Hn|].
    intros (d & Hd & _). by apply elem_of_nil in Hd.
  - destruct (safe (x + dx) (y + dy)) as [b| |] eqn:Hb; simpl in Hns; try discriminate.
    destruct (neighbors_loop safe x y ds) as [rest| |] eqn:Hr; simpl in Hns; try discriminate.
    injection Hns as <-. specialize (IH rest eq_refl n).
    split.
    + intros Hn. destruct b.
      * apply elem_of_cons in Hn as [->|Hn].
        -- exists (dx, dy). split; [by left|]. done.
        -- apply IH in Hn as (d & Hd & Hn). exists d. split; [by right|done].
      * apply IH in Hn as (d & Hd & Hn). exists d. split; [by right|done].
    + intros (d & Hd & -> & Hsafe). apply elem_of_cons in Hd as [->|Hd].
      * simpl in Hsafe. rewrite Hsafe in Hb. injection Hb as <-. by left.
      * assert (Hin : (x + d.1, y + d.2) ∈ rest) by (apply IH; by exists d).
        destruct b; [by right|done].
Qed.

Lemma get_neighbors_spec (cur : coord) (ns : list coord) :
  get_neighbors safe cur = Ret ns →
  ∀ n, n ∈ ns ↔ ∃ d, d ∈ offsets ∧ n = step cur d ∧ safe_cell n.
Proof.
  intros Hns n. unfold get_neighbors in Hns. rewrite (neighbors_loop_spec _ _ _ _ Hns n).
  split; intros (d & Hd & -> & Hs); exists d; done.
Qed.

Lemma neighbors_loop_result (x y : Z) (ds : list (Z * Z)) :
  (∀ x y, ∃ b, safe x y = Ret b) → ∃ ns, neighbors_loop safe x y ds = Ret ns.
Proof.
  intros Htot. induction ds as [|[dx dy] ds [rest Hr]]; simpl; [by eexists|].
  destruct (Htot (x + dx) (y + dy)) as [b ->]. simpl. rewrite Hr. simpl. by eexists.
Qed.

Lemma neighbors_loop_no_fuel (x y : Z) (ds : list (Z * Z)) :
  (∀ x y, safe x y ≠ OutOfFuel) → neighbors_loop safe x y ds ≠ OutOfFuel.
Proof.
  intros Hnf. induction ds as [|[dx dy] ds IH]; simpl; [done|].
  specialize (Hnf (x + dx) (y + dy)).
  destruct (safe (x + dx) (y + dy)); simpl; [|done|done].
  destruct (neighbors_loop safe x y ds); simpl; done.
Qed.

Lemma get_neighbors_not_self (cur : coord) (ns : list coord) :
  get_neighbors safe cur = Ret ns → cur ∉ ns.
Proof.
  intros Hns Hin. apply (get_neighbors_spec _ _ Hns) in Hin as (d & Hd & Heq & _).
  by apply (step_ne cur d Hd).
Qed.

End AStarProofs.

(* ------------------------------------------------------------------ *)
(** ** One pass of the neighbour loop *)

Lemma relax_ret (goal cur : coord) (gcur : Z) (ns : list coord) (st : AState) :
  g_score st !! cur = Some gcur → cur ∉ ns → ∃ st', relax goal cur ns st = Ret st'.
Proof.
  revert st. induction ns as [|n ns IH]; intros st Hg Hcur; simpl; [by eexists|].
  unfold g_lookup. rewrite Hg. simpl.
  assert (Hn : n ≠ cur) by (intros ->; apply Hcur; by left).
  assert (Hcur' : cur ∉ ns) by (intros Hin; apply Hcur; by right).
  destruct (match g_score st !! n with Some gn => _ | None => _ end).
  - apply IH; [|done]. simpl. by rewrite lookup_insert_ne.
  - by apply IH.
Qed.

Lemma relax_facts (goal cur : coord) (gcur : Z) (ns : list coord) (st st' : AState) :
  g_score st !! cur = Some gcur → cur ∉ ns → relax goal cur ns st = Ret st' →
  g_score st' !! cur = Some gcur ∧
  expanded st' = expanded st ∧
  (∀ e, e ∈ heap st → e ∈ heap st') ∧
  (∀ e, e ∈ heap st' → e ∈ heap st ∨
        ∃ c, c ∈ ns ∧ e = (gcur + 1 + manhattan_distance c goal, c)) ∧
  (∀ c, (came_from st' !! c = came_from st !! c ∧ g_score st' !! c = g_score st !! c) ∨
        (c ∈ ns ∧ came_from st' !! c = Some cur ∧ g_score st' !! c = Some (gcur + 1) ∧
         (gcur + 1 + manhattan_distance c goal, c) ∈ heap st' ∧
         (g_score st !! c = None ∨ ∃ v, g_score st !! c = Some v ∧ gcur + 1 < v))) ∧
  (∀ n, n ∈ ns → ∃ v, g_score st' !! n = Some v ∧ v <= gcur + 1).
Proof.
  revert st. induction ns as [|n ns IH]; intros st Hg Hcur Hrel; simpl in Hrel.
  - injection Hrel as <-. split; [done|]. split; [done|]. split; [done|].
    split; [by left|]. split; [by left|]. intros n Hn. by apply elem_of_nil in Hn.
  - unfold g_lookup in Hrel. rewrite Hg in Hrel. simpl in Hrel.
    assert (Hn : n ≠ cur) by (intros ->; apply Hcur; by left).
    assert (Hcur' : cur ∉ ns) by (intros Hin; apply Hcur; by right).
    destruct (g_score st !! n) as [gn|] eqn:Egn.
    + destruct (Z.ltb_spec (gcur + 1) gn) as [Hlt|Hge].
      * (* improvement *)
        set (st1 := mkAState (heappush (heap st) (gcur + 1 + manhattan_distance n goal, n))
                      (<[n:=cur]> (came_from st)) (<[n:=gcur + 1]> (g_score st)) (expanded st)).
        assert (Hg1 : g_score st1 !! cur = Some gcur) by (simpl; by rewrite lookup_insert_ne).
        destruct (IH st1 Hg1 Hcur' Hrel) as (H1 & H2 & H3 & H4 & H5 & H6).
        split; [done|]. split; [done|].
        split; [intros e He; apply H3; simpl; by right|].
        split.
        { intros e He. apply H4 in He as [He|(c & Hc & ->)].
          - simpl in He. apply elem_of_cons in He as [->|He]; [right; exists n; split; [by left|done]|by left].
          - right. exists c. split; [by right|done]. }
        split.
        { intros c. destruct (H5 c) as [[Hcf Hgs]|(Hc & Hcf & Hgs & Hh & Hold)].
          - destruct (decide (c = n)) as [->|Hcn].
            + right. unfold st1 in Hcf, Hgs; cbn [g_score came_from] in Hcf, Hgs. rewrite lookup_insert_eq in Hcf. rewrite lookup_insert_eq in Hgs.
              split; [by left|]. split; [done|]. split; [done|].
              split; [apply H3; simpl; by left|]. right. by exists gn.
            + left. unfold st1 in Hcf, Hgs; cbn [g_score came_from] in Hcf, Hgs. rewrite lookup_insert_ne in Hcf by congruence. rewrite lookup_insert_ne in Hgs by congruence.
              done.
          - destruct (decide (c = n)) as [->|Hcn].
            + unfold st1 in Hold; cbn [g_score] in Hold. rewrite lookup_insert_eq in Hold.
              destruct Hold as [Hold|(v & Hv & Hlt')]; [done|]. injection Hv as <-. lia.
            + right. unfold st1 in Hold; cbn [g_score] in Hold. rewrite lookup_insert_ne in Hold by congruence.
              split; [by right|]. done. }
        intros m Hm. apply elem_of_cons in Hm as [->|Hm]; [|by apply H6].
        destruct (H5 n) as [[_ Hgs]|(_ & _ & Hgs & _)].
        -- unfold st1 in Hgs; cbn [g_score] in Hgs. rewrite lookup_insert_eq in Hgs. exists (gcur + 1). split; [done|lia].
        -- exists (gcur + 1). split; [done|lia].
      * (* no improvement *)
        destruct (IH st Hg Hcur' Hrel) as (H1 & H2 & H3 & H4 & H5 & H6).
        split; [done|]. split; [done|]. split; [done|].
        split.
        { intros e He. apply H4 in He as [He|(c & Hc & ->)]; [by left|].
          right. exists c. split; [by right|done]. }
        split.
        { intros c. destruct (H5 c) as [Hc|(Hc & Hrest)]; [by left|]. right.
          split; [by right|done]. }
        intros m Hm. apply elem_of_cons in Hm as [->|Hm]; [|by apply H6].
        destruct (H5 n) as [[_ Hgs]|(_ & _ & Hgs & _)].
        -- exists gn. rewrite Hgs. split; [done|lia].
        -- exists (gcur + 1). split; [done|lia].
    + (* first visit *)
      set (st1 := mkAState (heappush (heap st) (gcur + 1 + manhattan_distance n goal, n))
                    (<[n:=cur]> (came_from st)) (<[n:=gcur + 1]> (g_score st)) (expanded st)).
      assert (Hg1 : g_score st1 !! cur = Some gcur) by (simpl; by rewrite lookup_insert_ne).
      destruct (IH st1 Hg1 Hcur' Hrel) as (H1 & H2 & H3 & H4 & H5 & H6).
      split; [done|]. split; [done|].
      split; [intros e He; apply H3; simpl; by right|].
      split.
      { intros e He. apply H4 in He as [He|(c & Hc & ->)].
        - simpl in He. apply elem_of_cons in He as [->|He]; [right; exists n; split; [by left|done]|by left].
        - right. exists c. split; [by right|done]. }
      split.
      { intros c. destruct (H5 c) as [[Hcf Hgs]|(Hc & Hcf & Hgs & Hh & Hold)].
        - destruct (decide (c = n)) as [->|Hcn].
          + right. unfold st1 in Hcf, Hgs; cbn [g_score came_from] in Hcf, Hgs. rewrite lookup_insert_eq in Hcf. rewrite lookup_insert_eq in Hgs.
            split; [by left|]. split; [done|]. split; [done|].
            split; [apply H3; simpl; by left|]. by left.
          + left. unfold st1 in Hcf, Hgs; cbn [g_score came_from] in Hcf, Hgs. rewrite lookup_insert_ne in Hcf by congruence. rewrite lookup_insert_ne in Hgs by congruence.
            done.
        - destruct (decide (c = n)) as [->|Hcn].
          + unfold st1 in Hold; cbn [g_score] in Hold. rewrite lookup_insert_eq in Hold.
            destruct Hold as [Hold|(v & Hv & Hlt')]; [done|]. injection Hv as <-. lia.
          + right. unfold st1 in Hold; cbn [g_score] in Hold. rewrite lookup_insert_ne in Hold by congruence.
            split; [by right|]. done. }
      intros m Hm. apply elem_of_cons in Hm as [->|Hm]; [|by apply H6].
      destruct (H5 n) as [[_ Hgs]|(_ & _ & Hgs & _)].
      -- unfold st1 in Hgs; cbn [g_score] in Hgs. rewrite lookup_insert_eq in Hgs. exists (gcur + 1). split; [done|lia].
      -- exists (gcur + 1). split; [done|lia].
Qed.

(* ------------------------------------------------------------------ *)
(** ** The invariant of the [while heap] loop *)

Section AStarLoop.

Variable safe : Z → Z → M bool.
Variables (cells : list coord) (start goal : coord).

(** Every cell the oracle accepts is one of [cells] (for [is_safe]: the
    board). *)
Hypothesis safe_in_cells : ∀ c, safe_cell safe c → c ∈ cells.

Definition universe : list coord := start :: cells.

Definition hval (c : coord) : Z := manhattan_distance c goal.

(** All safe neighbours of [c] have a g-score of at most [v + 1]. *)
Definition closed_at (g : gmap coord Z) (c : coord) (v : Z) : Prop :=
  ∀ d, d ∈ offsets → safe_cell safe (step c d) →
       ∃ vn, g !! step c d = Some vn ∧ vn <= v + 1.

Definition gbounded (g : gmap coord Z) : Prop :=
  ∀ c v, g !! c = Some v →
         c ∈ universe ∧ 0 <= v ∧ v < Z.of_nat (nassigned g universe).

Record Inv (st : AState) : Prop := {
  inv_start : g_score st !! start = Some 0;
  inv_g : gbounded (g_score st);
  inv_cf : ∀ c p, came_from st !! c = Some p →
    safe_cell safe c ∧ (∃ d, d ∈ offsets ∧ c = step p d) ∧
    ∃ vc vp, g_score st !! c = Some vc ∧ g_score st !! p = Some vp ∧ vp < vc;
  inv_cf_dom : ∀ c v, g_score st !! c = Some v → c ≠ start → is_Some (came_from st !! c);
  inv_heap : ∀ f c, (f, c) ∈ heap st → is_Some (g_score st !! c);
  inv_goal : ∀ f, (f, goal) ∈ heap st → ∃ v, g_score st !! goal = Some v ∧ v <= f;
  inv_open : ∀ c v, g_score st !! c = Some v →
    (∃ f, (f, c) ∈ heap st ∧ f <= v + hval c) ∨ (c ≠ goal ∧ closed_at (g_score st) c v)
}.

Definition measure (st : AState) : nat :=
  (2 * gsum (length universe) (g_score st) universe + length (heap st))%nat.

Lemma inv_init : Inv (astar_init start goal).
Proof.
  unfold astar_init. split; simpl.
  - by rewrite lookup_singleton_eq.
  - intros c v Hc. apply lookup_singleton_Some in Hc as [<- <-].
    unfold universe. simpl. unfold assigned. rewrite lookup_singleton_eq.
    split; [by left|]. lia.
  - intros c p Hc. by rewrite lookup_empty in Hc.
  - intros c v Hc Hne. apply lookup_singleton_Some in Hc as [<- _]. done.
  - intros f c Hc. apply elem_of_cons in Hc as [Hc|Hc]; [|by apply elem_of_nil in Hc].
    injection Hc as -> ->. rewrite lookup_singleton_eq. by eexists.
  - intros f Hc. apply elem_of_cons in Hc as [Hc|Hc]; [|by apply elem_of_nil in Hc].
    injection Hc as -> ->. exists 0. rewrite lookup_singleton_eq. split; [done|lia].
  - intros c v Hc. apply lookup_singleton_Some in Hc as [<- <-]. left. exists 0.
    split; [by left|]. unfold hval, manhattan_distance. lia.
Qed.

Lemma update_gbounded (g : gmap coord Z) (n : coord) (gcur : Z) :
  gbounded g → 0 <= gcur < Z.of_nat (nassigned g universe) → n ∈ universe →
  (g !! n = None ∨ ∃ v, g !! n = Some v ∧ gcur + 1 < v) →
  gbounded (<[n:=(gcur + 1)%Z]> g) ∧
  (gsum (length universe) (<[n:=(gcur + 1)%Z]> g) universe < gsum (length universe) g universe)%nat.
Proof.
  intros Hb Hcur Hn Hold.
  assert (Hmono : ∀ c, assigned g c = true → assigned (<[n:=(gcur + 1)%Z]> g) c = true).
  { intros c. unfold assigned. destruct (decide (c = n)) as [->|Hcn].
    - by rewrite lookup_insert_eq.
    - by rewrite lookup_insert_ne by congruence. }
  pose proof (nassigned_mono _ _ universe Hmono) as Hle.
  assert (Hgv_n : (gv (length universe) (<[n:=(gcur + 1)%Z]> g) n < gv (length universe) g n)%nat).
  { unfold gv. rewrite lookup_insert_eq. destruct Hold as [Hnone|(v & Hv & Hlt)].
    - rewrite Hnone. assert (Hna : assigned g n = false) by (unfold assigned; by rewrite Hnone).
      pose proof (nassigned_lt_length g universe n Hn Hna). lia.
    - rewrite Hv. lia. }
  assert (Hgv : ∀ c, (gv (length universe) (<[n:=(gcur + 1)%Z]> g) c <= gv (length universe) g c)%nat).
  { intros c. destruct (decide (c = n)) as [->|Hcn]; [lia|].
    unfold gv. rewrite lookup_insert_ne by congruence. lia. }
  split; [|by apply (gsum_lt _ _ _ _ n)].
  intros c v Hc. destruct (decide (c = n)) as [->|Hcn].
  - rewrite lookup_insert_eq in Hc. injection Hc as <-. split; [done|]. split; [lia|].
    destruct Hold as [Hnone|(v & Hv & Hlt)].
    + assert (Hna : assigned g n = false) by (unfold assigned; by rewrite Hnone).
      assert (Hna' : assigned (<[n:=(gcur + 1)%Z]> g) n = true)
        by (unfold assigned; by rewrite lookup_insert_eq).
      pose proof (nassigned_strict _ _ universe n Hmono Hn Hna Hna'). lia.
    + destruct (Hb n v Hv) as (_ & _ & Hvb). lia.
  - rewrite lookup_insert_ne in Hc by congruence.
    destruct (Hb c v Hc) as (Hu & Hv0 & Hvb). split; [done|]. lia.
Qed.

Lemma relax_gbounded (cur : coord) (gcur : Z) (ns : list coord) (st st' : AState) :
  gbounded (g_score st) → g_score st !! cur = Some gcur → cur ∉ ns →
  (∀ n, n ∈ ns → n ∈ universe) → relax goal cur ns st = Ret st' →
  gbounded (g_score st') ∧
  (2 * gsum (length universe) (g_score st') universe + length (heap st')
   <= 2 * gsum (length universe) (g_score st) universe + length (heap st))%nat.
Proof.
  revert st. induction ns as [|n ns IH]; intros st Hb Hg Hcur Hns Hrel; simpl in Hrel.
  - injection Hrel as <-. split; [done|lia].
  - unfold g_lookup in Hrel. rewrite Hg in Hrel. simpl in Hrel.
    assert (Hn : n ≠ cur) by (intros ->; apply Hcur; by left).
    assert (Hcur' : cur ∉ ns) by (intros Hin; apply Hcur; by right).
    assert (Hns' : ∀ m, m ∈ ns → m ∈ universe) by (intros m Hm; apply Hns; by right).
    assert (Hnu : n ∈ universe) by (apply Hns; by left).
    destruct (Hb cur gcur Hg) as (_ & Hg0 & Hgb).
    destruct (g_score st !! n) as [gn|] eqn:Egn;
      [destruct (Z.ltb_spec (gcur + 1) gn) as [Hlt|Hge]|].
    + destruct (update_gbounded (g_score st) n gcur Hb (conj Hg0 Hgb) Hnu)
        as [Hb1 Hsum]; [right; exists gn; split; [done|lia]|].
      edestruct (IH (mkAState (heappush (heap st) (gcur + 1 + manhattan_distance n goal, n))
                    (<[n:=cur]> (came_from st)) (<[n:=(gcur + 1)%Z]> (g_score st)) (expanded st)))
        as [Hb2 Hm2]; [exact Hb1| simpl; by rewrite lookup_insert_ne | done | done | exact Hrel |].
      split; [done|]. cbn [heap g_score heappush length] in Hm2. lia.
    + by apply (IH st).
    + destruct (update_gbounded (g_score st) n gcur Hb (conj Hg0 Hgb) Hnu)
        as [Hb1 Hsum]; [by left|].
      edestruct (IH (mkAState (heappush (heap st) (gcur + 1 + manhattan_distance n goal, n))
                    (<[n:=cur]> (came_from st)) (<[n:=(gcur + 1)%Z]> (g_score st)) (expanded st)))
        as [Hb2 Hm2]; [exact Hb1| simpl; by rewrite lookup_insert_ne | done | done | exact Hrel |].
      split; [done|]. cbn [heap g_score heappush length] in Hm2. lia.
Qed.

Lemma iteration_inv (st : AState) (fp : Z) (cur : coord) (heap' : list entry)
    (ns : list coord) (st2 : AState) :
  Inv st → heappop (heap st) = Some ((fp, cur), heap') → cur ≠ goal →
  get_neighbors safe cur = Ret ns →
  relax goal cur ns (mkAState heap' (came_from st) (g_score st) (expanded st ++ [cur])) = Ret st2 →
  Inv st2 ∧ (measure st2 < measure st)%nat ∧ expanded st2 = expanded st ++ [cur].
Proof.
  intros Hinv Hpop Hne Hns Hrel.
  destruct (heappop_spec _ _ _ Hpop) as (Hin & _ & Hsub & Hkeep & Hlen).
  destruct (inv_heap _ Hinv fp cur Hin) as [gcur Hgcur].
  destruct (inv_g _ Hinv cur gcur Hgcur) as (_ & Hg0 & _).
  pose proof (get_neighbors_not_self safe cur ns Hns) as Hnself.
  assert (Hnsu : ∀ n, n ∈ ns → n ∈ universe).
  { intros n Hn. apply (get_neighbors_spec safe cur ns Hns) in Hn as (d & _ & _ & Hs).
    unfold universe. apply elem_of_cons. right. by apply safe_in_cells. }
  set (st1 := mkAState heap' (came_from st) (g_score st) (expanded st ++ [cur])) in Hrel.
  destruct (relax_facts goal cur gcur ns st1 st2 Hgcur Hnself Hrel)
    as (Hg1 & Hexp & Hh1 & Hh2 & Hcell & Hns2).
  destruct (relax_gbounded cur gcur ns st1 st2 (inv_g _ Hinv) Hgcur Hnself Hnsu Hrel)
    as [Hb2 Hm2].
  unfold st1 in Hexp, Hh1, Hh2, Hcell, Hm2.
  cbn [g_score came_from heap expanded] in Hexp, Hh1, Hh2, Hcell, Hm2.
  assert (Hmono : ∀ c v, g_score st !! c = Some v →
                  ∃ v', g_score st2 !! c = Some v' ∧ v' <= v).
  { intros c v Hc. destruct (Hcell c) as [[_ Hgc]|(_ & _ & Hgc & _ & Hold)].
    - exists v. rewrite Hgc. split; [done|lia].
    - exists (gcur + 1). split; [done|]. rewrite Hc in Hold.
      destruct Hold as [Hn|(v0 & Hv0 & Hlt)]; [discriminate|]. injection Hv0 as <-. lia. }
  split; [split|split].
  - destruct (Hmono start 0 (inv_start _ Hinv)) as (v' & Hv' & Hle).
    destruct (Hb2 start v' Hv') as (_ & Hv0 & _). by replace 0 with v' by lia.
  - exact Hb2.
  - intros c p Hcp. destruct (Hcell c) as [[Hcf Hgc]|(Hc & Hcf & Hgc & _ & _)].
    + rewrite Hcf in Hcp.
      destruct (inv_cf _ Hinv c p Hcp) as (Hs & Hadj & vc & vp & Hvc & Hvp & Hlt).
      split; [done|]. split; [done|]. destruct (Hmono p vp Hvp) as (vp' & Hvp' & Hle).
      exists vc, vp'. rewrite Hgc. split; [done|]. split; [done|lia].
    + rewrite Hcf in Hcp. injection Hcp as <-.
      apply (get_neighbors_spec safe cur ns Hns) in Hc as (d & Hd & Heq & Hs).
      split; [done|]. split; [by exists d|]. exists (gcur + 1), gcur.
      split; [done|]. split; [done|lia].
  - intros c v Hc Hcs. destruct (Hcell c) as [[Hcf Hgc]|(_ & Hcf & _)].
    + rewrite Hcf. rewrite Hgc in Hc. exact (inv_cf_dom _ Hinv c v Hc Hcs).
    + rewrite Hcf. by eexists.
  - intros f c Hfc. destruct (Hh2 _ Hfc) as [H1|(n & Hn & Heq)].
    + destruct (inv_heap _ Hinv f c (Hsub _ H1)) as [v Hv].
      destruct (Hmono c v Hv) as (v' & Hv' & _). by exists v'.
    + injection Heq as _ ->. destruct (Hns2 n Hn) as (v & Hv & _). by exists v.
  - intros f Hfg. destruct (Hh2 _ Hfg) as [H1|(n & Hn & Heq)].
    + destruct (inv_goal _ Hinv f (Hsub _ H1)) as (v & Hv & Hle).
      destruct (Hmono _ _ Hv) as (v' & Hv' & Hle'). exists v'. split; [done|lia].
    + injection Heq as Hf Hgn. subst n f. destruct (Hns2 goal Hn) as (v & Hv & Hle).
      exists v. split; [done|]. unfold manhattan_distance. lia.
  - intros c v Hc. destruct (decide (c = cur)) as [->|Hccur].
    + rewrite Hg1 in Hc. injection Hc as <-. right. split; [done|].
      intros d Hd Hs. apply Hns2. apply (get_neighbors_spec safe cur ns Hns). by exists d.
    + destruct (Hcell c) as [[_ Hgc]|(Hcn & _ & Hgc & Hh & _)].
      * rewrite Hgc in Hc.
        destruct (inv_open _ Hinv c v Hc) as [(f & Hf & Hle)|(Hcg & Hcl)].
        -- left. exists f. split; [|done]. apply Hh1. apply Hkeep; [done|].
           intros Heq. injection Heq as _ Hc'. contradiction.
        -- right. split; [done|]. intros d Hd Hs.
           destruct (Hcl d Hd Hs) as (vn & Hvn & Hle).
           destruct (Hmono _ _ Hvn) as (vn' & ? & ?). exists vn'. split; [done|lia].
      * rewrite Hgc in Hc. injection Hc as <-. left.
        exists (gcur + 1 + manhattan_distance c goal). split; [done|]. unfold hval. lia.
  - unfold measure. lia.
  - exact Hexp.
Qed.

Lemma reconstruct_spec (st : AState) (fuel : nat) (cur : coord) (v : Z) (acc : list coord) :
  Inv st → g_score st !! cur = Some v → (Z.to_nat v < fuel)%nat →
  ∃ p, reconstruct fuel (came_from st) start cur acc = Ret (p ++ rev acc) ∧
       walk safe start cur p ∧ (length p <= S (Z.to_nat v))%nat.
Proof.
  intros Hinv. revert cur v acc. induction fuel as [|fuel IH]; intros cur v acc Hv Hf; [lia|].
  simpl. destruct (came_from st !! cur) as [prev|] eqn:Ecf.
  - destruct (inv_cf _ Hinv cur prev Ecf) as (Hs & (d & Hd & ->) & vc & vp & Hvc & Hvp & Hlt).
    rewrite Hv in Hvc. injection Hvc as <-.
    destruct (inv_g _ Hinv prev vp Hvp) as (_ & Hvp0 & _).
    destruct (IH prev vp (acc ++ [step prev d]) Hvp) as (p & Hp & Hw & Hlen); [lia|].
    exists (p ++ [step prev d]). rewrite Hp. split.
    + rewrite rev_app_distr. simpl. by rewrite <- app_assoc.
    + split; [by apply walk_snoc|]. rewrite length_app. simpl. lia.
  - destruct (decide (cur = start)) as [->|Hne].
    + exists [start]. split; [by rewrite rev_app_distr|]. split; [constructor|]. simpl. lia.
    + destruct (inv_cf_dom _ Hinv cur v Hv Hne) as [? Hc]. congruence.
Qed.

Lemma frontier_gen (st : AState) :
  Inv st → ∀ a b p, walk safe a b p → b = goal →
  ∀ n va, g_score st !! a = Some va → va <= n →
  ∃ f c, (f, c) ∈ heap st ∧ f <= n + Z.of_nat (length p) - 1.
Proof.
  intros Hinv a0 b0 p0 Hw0.
  induction Hw0 as [a|a b p d Hd Hs Hw IH]; intros Hb n va Ha Hle.
  - rewrite Hb in Ha. destruct (inv_open _ Hinv goal va Ha) as [(f & Hf & Hfle)|[Hne _]]; [|done].
    exists f, goal. split; [done|]. unfold hval, manhattan_distance in Hfle. simpl. lia.
  - pose proof (walk_manhattan safe a b (a :: p)
                  (walk_step safe a b p d Hd Hs Hw)) as Hm.
    rewrite Hb in Hm. destruct (inv_open _ Hinv a va Ha) as [(f & Hf & Hfle)|[_ Hcl]].
    + exists f, a. split; [done|]. unfold hval in Hfle. simpl in *. lia.
    + destruct (Hcl d Hd Hs) as (vn & Hvn & Hvle).
      destruct (IH Hb (n + 1) vn Hvn) as (f & c & Hfc & Hfle); [lia|].
      exists f, c. split; [done|]. simpl. lia.
Qed.

Lemma frontier (st : AState) (p : list coord) :
  Inv st → walk safe start goal p →
  ∃ f c, (f, c) ∈ heap st ∧ f <= Z.of_nat (length p) - 1.
Proof.
  intros Hinv Hw. destruct (frontier_gen st Hinv start goal p Hw eq_refl 0 0 (inv_start _ Hinv))
    as (f & c & Hfc & Hle); [lia|].
  exists f, c. split; [done|lia].
Qed.

(** The outcome of the [while heap] loop. *)
Definition loop_outcome (r : option (list coord)) : Prop :=
  match r with
  | None => ∀ p, ¬ walk safe start goal p
  | Some p => walk safe start goal p ∧ ∀ q, walk safe start goal q → (length p <= length q)%nat
  end.

Lemma astar_loop_correct (fuel pf : nat) (st : AState) :
  (∀ x y, ∃ b, safe x y = Ret b) → Inv st →
  (measure st < fuel)%nat → (length universe <= pf)%nat →
  ∃ r exp, astar_loop safe fuel pf start goal st = Ret (r, exp) ∧
    (length exp <= length (expanded st) + measure st)%nat ∧ loop_outcome r.
Proof.
  intros Htot. revert st. induction fuel as [|fuel IH]; intros st Hinv Hm Hpf; [lia|].
  simpl. destruct (heappop (heap st)) as [[[fp cur] heap']|] eqn:Hpop.
  - destruct (heappop_spec _ _ _ Hpop) as (Hin & Hmin & Hsub & Hkeep & Hlen).
    destruct (inv_heap _ Hinv fp cur Hin) as [gcur Hgcur].
    assert (Hm1 : (1 <= measure st)%nat) by (unfold measure; lia).
    destruct (decide (cur = goal)) as [->|Hne].
    + destruct (inv_g _ Hinv goal gcur Hgcur) as (_ & Hg0 & Hgb).
      pose proof (nassigned_le_length (g_score st) universe).
      destruct (reconstruct_spec st pf goal gcur [] Hinv Hgcur) as (p & Hp & Hw & Hlen'); [lia|].
      rewrite Hp. simpl. rewrite app_nil_r.
      exists (Some p), (expanded st ++ [goal]). split; [done|].
      split; [rewrite length_app; simpl; lia|].
      split; [done|]. intros q Hq.
      destruct (frontier st q Hinv Hq) as (f & c & Hfc & Hfle).
      pose proof (Hmin _ Hfc) as Hle. unfold entry_le in Hle. simpl in Hle.
      destruct (inv_goal _ Hinv fp Hin) as (v & Hv & Hvle).
      rewrite Hgcur in Hv. injection Hv as <-. lia.
    + destruct (neighbors_loop_result safe cur.1 cur.2 (map snd DIRECTIONS) Htot) as [ns Hns].
      change (neighbors_loop safe cur.1 cur.2 (map snd DIRECTIONS)) with (get_neighbors safe cur) in Hns.
      pose proof (get_neighbors_not_self safe cur ns Hns) as Hnself.
      destruct (relax_ret goal cur gcur ns
                  (mkAState heap' (came_from st) (g_score st) (expanded st ++ [cur])) Hgcur Hnself)
        as [st2 Hrel].
      destruct (iteration_inv st fp cur heap' ns st2 Hinv Hpop Hne Hns Hrel)
        as (Hinv2 & Hm2 & Hexp2).
      rewrite Hns. simpl. rewrite Hrel. simpl.
      destruct (IH st2 Hinv2 ltac:(lia) Hpf) as (r & exp & Hr & Hexp & Hout).
      exists r, exp. split; [done|]. split; [|done]. rewrite Hexp2, length_app in Hexp.
      simpl in Hexp. lia.
  - apply heappop_none in Hpop. exists None, (expanded st). split; [done|].
    split; [lia|]. intros p Hp. destruct (frontier st p Hinv Hp) as (f & c & Hfc & _).
    rewrite Hpop in Hfc. by apply elem_of_nil in Hfc.
Qed.

End AStarLoop.

(* ------------------------------------------------------------------ *)
(** ** [find_path] on a board *)

(** The cells [0 <= x < width], [0 <= y < height] of the board. *)
Definition board_cells (gs : GameState) : list coord :=
  list_prod (map Z.of_nat (seq 0 (Z.to_nat (width (board gs)))))
            (map Z.of_nat (seq 0 (Z.to_nat (height (board gs))))).

Lemma board_cells_safe (gs : GameState) (c : coord) :
  safe_cell (λ x y, is_safe x y gs) c → c ∈ board_cells gs.
Proof.
  destruct c as [x y]. unfold safe_cell. simpl. intros H.
  apply is_safe_true_bounds in H as [[Hx0 Hx] [Hy0 Hy]].
  unfold board_cells. apply list_elem_of_In. apply in_prod_iff. split; apply in_map_iff.
  - exists (Z.to_nat x). split; [lia|]. apply in_seq. lia.
  - exists (Z.to_nat y). split; [lia|]. apply in_seq. lia.
Qed.

Lemma board_cells_length (gs : GameState) :
  length (board_cells gs) = (Z.to_nat (width (board gs)) * Z.to_nat (height (board gs)))%nat.
Proof. unfold board_cells. by rewrite length_prod, !length_map, !length_seq. Qed.

Lemma find_path_traced_correct (start goal : coord) (gs : GameState) :
  body (you gs) ≠ [] →
  ∃ r exp, find_path_traced start goal gs = Ret (r, exp) ∧
    (length exp <= 2 * cells_bound gs * cells_bound gs + 1)%nat ∧
    loop_outcome (λ x y, is_safe x y gs) start goal r.
Proof.
  intros Hne.
  assert (Htot : ∀ x y, ∃ b, is_safe x y gs = Ret b) by (intros x y; by apply is_safe_ret).
  assert (Hlen : length (universe (board_cells gs) start) = cells_bound gs).
  { unfold universe, cells_bound. simpl. by rewrite board_cells_length. }
  pose proof (inv_init (λ x y, is_safe x y gs) (board_cells gs) start goal) as Hinv.
  assert (Hm : (measure (board_cells gs) start (astar_init start goal)
                <= 2 * cells_bound gs * cells_bound gs + 1)%nat).
  { unfold measure. rewrite Hlen. cbn [heap astar_init length].
    pose proof (gsum_bound (cells_bound gs) (g_score (astar_init start goal))
                  (universe (board_cells gs) start)) as Hb.
    rewrite Hlen in Hb. cut (gsum (cells_bound gs) (g_score (astar_init start goal))
                               (universe (board_cells gs) start) <= cells_bound gs * cells_bound gs)%nat;
      [lia|].
    apply Hb. intros c _. unfold gv. cbn [g_score astar_init].
    destruct ({[start := 0]} !! c) as [v|] eqn:E; [|lia].
    apply lookup_singleton_Some in E as [_ <-]. lia. }
  unfold find_path_traced, astar.
  destruct (astar_loop_correct (λ x y, is_safe x y gs) (board_cells gs) start goal
              (board_cells_safe gs) (search_fuel gs) (cells_bound gs) (astar_init start goal)
              Htot Hinv) as (r & exp & Hr & Hexp & Hout).
  - unfold search_fuel. lia.
  - lia.
  - exists r, exp. split; [done|]. split; [|done]. simpl in Hexp. lia.
Qed.

Lemma find_path_correct (start goal : coord) (gs : GameState) :
  body (you gs) ≠ [] →
  ∃ r, find_path start goal gs = Ret r ∧ loop_outcome (λ x y, is_safe x y gs) start goal r.
Proof.
  intros Hne. destruct (find_path_traced_correct start goal gs Hne) as (r & exp & Hr & _ & Hout).
  exists r. unfold find_path. rewrite Hr. done.
Qed.

(* ------------------------------------------------------------------ *)
(** ** Facts about the decision tiers *)

Lemma str_in_spec (s : string) (l : list string) : str_in s l = true ↔ s ∈ l.
Proof.
  unfold str_in. rewrite existsb_exists. split.
  - intros (t & Hin & Heq). apply String.eqb_eq in Heq. subst. by apply list_elem_of_In.
  - intros Hin. exists s. split; [by apply list_elem_of_In|]. by apply String.eqb_eq.
Qed.

Lemma path_move_spec (p : option (list coord)) (h : coord) (sm : list string) (m : string) :
  path_move p h sm = Some m ↔
  ∃ ps, p = Some ps ∧ get_move_from_path ps h = Some m ∧ m ∈ sm.
Proof.
  unfold path_move. split.
  - destruct p as [[|q qs]|]; try discriminate.
    destruct (get_move_from_path (q :: qs) h) as [mv|] eqn:E; [|discriminate].
    destruct (str_in mv sm) eqn:Ei; [|discriminate]. intros [= <-].
    exists (q :: qs). split; [done|]. split; [done|]. by apply str_in_spec.
  - intros (ps & -> & Hg & Hin). destruct ps as [|q qs]; [discriminate|].
    rewrite Hg. apply str_in_spec in Hin. by rewrite Hin.
Qed.

Lemma random_choice_ret {A} (r : nat) (l : list A) :
  l ≠ [] → ∃ a, random_choice r l = Ret a ∧ a ∈ l.
Proof.
  intros Hne. unfold random_choice. destruct l as [|x xs]; [done|].
  unfold py_index.
  destruct (lookup_lt_is_Some_2 (x :: xs) (r mod length (x :: xs))%nat) as [a Ha].
  - apply Nat.mod_upper_bound. simpl. lia.
  - rewrite Ha. exists a. split; [done|]. by apply list_elem_of_lookup_2 in Ha.
Qed.

Lemma py_min_by_spec {A} (key : A → Z) (best : A) (l : list A) :
  ∃ l1 l2, best :: l = l1 ++ py_min_by key best l :: l2 ∧
    key (py_min_by key best l) <= key best ∧
    (∀ a, a ∈ l1 → key (py_min_by key best l) < key a) ∧
    (∀ a, a ∈ l2 → key (py_min_by key best l) <= key a).
Proof.
  revert best. induction l as [|a l IH]; intros best; simpl.
  - exists [], []. split; [done|]. split; [lia|].
    split; intros x Hx; by apply elem_of_nil in Hx.
  - destruct (Z.ltb_spec (key a) (key best)) as [Hlt|Hge]; simpl.
    + destruct (IH a) as (l1 & l2 & Heq & Hle & H1 & H2).
      exists (best :: l1), l2. split; [simpl; by rewrite Heq|]. split; [lia|].
      split; [|done]. intros x Hx. apply elem_of_cons in Hx as [->|Hx]; [lia|by apply H1].
    + destruct (IH best) as (l1 & l2 & Heq & Hle & H1 & H2).
      destruct l1 as [|b l1].
      * simpl in Heq. injection Heq as Hc Hl. exists [], (a :: l2).
        split; [simpl; rewrite <- Hc, <- Hl; done|]. split; [lia|].
        split; [intros x Hx; by apply elem_of_nil in Hx|].
        intros x Hx. apply elem_of_cons in Hx as [->|Hx]; [rewrite <- Hc; lia|by apply H2].
      * simpl in Heq. injection Heq as Hb Hl. subst b.
        assert (Hcb : key (py_min_by key best l) < key best) by (apply H1; by left).
        exists (best :: a :: l1), l2. split; [simpl; do 2 f_equal; exact Hl|]. split; [lia|].
        split; [|done]. intros x Hx.
        apply elem_of_cons in Hx as [->|Hx]; [lia|].
        apply elem_of_cons in Hx as [->|Hx]; [lia|]. apply H1. by right.
Qed.

Lemma seek_food_facts (gs : GameState) (sm : list string) :
  body (you gs) ≠ [] →
  (food (board gs) = [] → seek_food gs sm = Ret None) ∧
  (food (board gs) ≠ [] →
   ∃ head tl l1 c l2 p,
     body (you gs) = head :: tl ∧ food (board gs) = l1 ++ c :: l2 ∧
     (∀ f, f ∈ l1 → manhattan_distance c head < manhattan_distance f head) ∧
     (∀ f, f ∈ l2 → manhattan_distance c head <= manhattan_distance f head) ∧
     find_path head c gs = Ret p ∧ seek_food gs sm = Ret (path_move p head sm)).
Proof.
  intros Hne. unfold seek_food.
  destruct (body (you gs)) as [|hd tl] eqn:Eb; [done|]. unfold py_index. simpl.
  split; [intros ->; done|]. intros Hf.
  destruct (food (board gs)) as [|f0 fs] eqn:Ef; [done|].
  set (key := λ f : coord, Z.abs (f.1 - hd.1) + Z.abs (f.2 - hd.2)).
  destruct (py_min_by_spec key f0 fs) as (l1 & l2 & Heq & _ & H1 & H2).
  destruct (find_path_correct hd (py_min_by key f0 fs) gs ltac:(by rewrite Eb)) as (p & Hp & _).
  exists hd, tl, l1, (py_min_by key f0 fs), l2, p.
  split; [done|]. split; [done|]. split; [exact H1|]. split; [exact H2|].
  split; [done|]. rewrite Hp. done.
Qed.

Lemma seek_food_ret (gs : GameState) (sm : list string) :
  body (you gs) ≠ [] → ∃ res, seek_food gs sm = Ret res ∧ ∀ m, res = Some m → m ∈ sm.
Proof.
  intros Hne. destruct (seek_food_facts gs sm Hne) as [H0 H1].
  destruct (food (board gs)) as [|f fs] eqn:Ef.
  - exists None. split; [by apply H0|]. discriminate.
  - destruct H1 as (head & tl & l1 & c & l2 & p & _ & _ & _ & _ & _ & Hs); [done|].
    exists (path_move p head sm). split; [done|]. intros m Hm.
    apply path_move_spec in Hm as (_ & _ & _ & Hin). done.
Qed.

Lemma chase_loop_facts (gs : GameState) (sm : list string) (head : coord) (n : nat)
    (ss : list Snake) :
  body (you gs) ≠ [] → (∀ s, s ∈ ss → body s ≠ []) →
  ∃ res, chase_loop gs sm head n ss = Ret res ∧
    match res with
    | Some m =>
        ∃ l1 s l2 tail p, ss = l1 ++ s :: l2 ∧ (length (body s) < n)%nat ∧
          last (body s) = Some tail ∧ find_path head tail gs = Ret p ∧
          path_move p head sm = Some m ∧
          ∀ s', s' ∈ l1 → (length (body s') < n)%nat →
            ∃ tail' p', last (body s') = Some tail' ∧ find_path head tail' gs = Ret p' ∧
                        path_move p' head sm = None
    | None =>
        ∀ s, s ∈ ss → (length (body s) < n)%nat →
          ∃ tail p, last (body s) = Some tail ∧ find_path head tail gs = Ret p ∧
                    path_move p head sm = None
    end.
Proof.
  intros Hne. induction ss as [|s ss IH]; intros Hss; simpl.
  - exists None. split; [done|]. intros s Hs. by apply elem_of_nil in Hs.
  - assert (Hss' : ∀ s', s' ∈ ss → body s' ≠ []) by (intros s' Hs'; apply Hss; by right).
    destruct (IH Hss') as (res & Hres & Hspec).
    destruct (Nat.ltb_spec (length (body s)) n) as [Hlt|Hge].
    + destruct (proj2 (last_is_Some (body s)) (Hss s ltac:(by left))) as [tail Htail].
      destruct (find_path_correct head tail gs Hne) as (p & Hp & _).
      unfold py_last. rewrite Htail. simpl. rewrite Hp. simpl.
      destruct (path_move p head sm) as [m|] eqn:Hm.
      * exists (Some m). split; [done|]. exists [], s, ss, tail, p.
        split; [done|]. split; [done|]. split; [done|]. split; [done|]. split; [done|].
        intros s' Hs'. by apply elem_of_nil in Hs'.
      * exists res. split; [done|]. destruct res as [m'|].
        -- destruct Hspec as (l1 & s0 & l2 & tail0 & p0 & -> & H1 & H2 & H3 & H4 & H5).
           exists (s :: l1), s0, l2, tail0, p0.
           split; [done|]. split; [done|]. split; [done|]. split; [done|]. split; [done|].
           intros s' Hs' Hl. apply elem_of_cons in Hs' as [->|Hs']; [|by apply H5].
           by exists tail, p.
        -- intros s' Hs' Hl. apply elem_of_cons in Hs' as [->|Hs']; [|by apply Hspec].
           by exists tail, p.
    + exists res. split; [done|]. destruct res as [m'|].
      * destruct Hspec as (l1 & s0 & l2 & tail0 & p0 & -> & H1 & H2 & H3 & H4 & H5).
        exists (s :: l1), s0, l2, tail0, p0.
        split; [done|]. split; [done|]. split; [done|]. split; [done|]. split; [done|].
        intros s' Hs' Hl. apply elem_of_cons in Hs' as [->|Hs']; [lia|by apply H5].
      * intros s' Hs' Hl. apply elem_of_cons in Hs' as [->|Hs']; [lia|by apply Hspec].
Qed.

Lemma chase_smaller_snake_unfold (gs : GameState) (sm : list string) (head : coord)
    (tl : list coord) :
  body (you gs) = head :: tl →
  chase_smaller_snake gs sm =
  chase_loop gs sm head (length (body (you gs))) (snakes (board gs)).
Proof. intros Hb. unfold chase_smaller_snake. rewrite Hb. done. Qed.

Lemma move_unfold (r : nat) (gs : GameState) (sm : list string) :
  get_safe_moves gs = Ret sm → sm ≠ [] →
  move r gs =
  if food_tier_enabled gs then
    (fm <- seek_food gs sm ;;
     match fm with Some mv => Ret mv | None => move_tail r gs sm end)
  else move_tail r gs sm.
Proof. intros Hsm Hne. unfold move. rewrite Hsm. simpl. by destruct sm. Qed.

Lemma py_max_spec (l : list nat) :
  l ≠ [] → py_max l ∈ l ∧ ∀ x, x ∈ l → (x <= py_max l)%nat.
Proof.
  destruct l as [|a l]; [done|]. intros _. unfold py_max.
  assert (H : ∀ acc, fold_left Nat.max l acc ∈ acc :: l ∧
                     ∀ x, x ∈ acc :: l → (x <= fold_left Nat.max l acc)%nat).
  { induction l as [|b l IH]; intros acc; simpl.
    - split; [by left|]. intros x Hx. apply elem_of_cons in Hx as [->|Hx]; [lia|].
      by apply elem_of_nil in Hx.
    - destruct (IH (Nat.max acc b)) as [Hin Hle]. split.
      + apply elem_of_cons in Hin as [Heq|Hin].
        * rewrite Heq. destruct (Nat.max_spec acc b) as [[_ ->]|[_ ->]];
            [right; by left|by left].
        * by right; right.
      + intros x Hx. apply elem_of_cons in Hx as [->|Hx].
        * pose proof (Hle (Nat.max acc b) ltac:(by left)). lia.
        * apply elem_of_cons in Hx as [->|Hx].
          -- pose proof (Hle (Nat.max acc b) ltac:(by left)). lia.
          -- apply Hle. by right. }
  apply H.
Qed.

Lemma max_snake_length_spec (gs : GameState) (maxo : nat) :
  ((other_snakes_lengths gs = [] ∧ maxo = 0%nat) ∨
   (maxo ∈ other_snakes_lengths gs ∧
    ∀ l, l ∈ other_snakes_lengths gs → (l <= maxo)%nat)) →
  max_snake_length gs = maxo.
Proof.
  unfold max_snake_length. destruct (other_snakes_lengths gs) as [|a l] eqn:E.
  - intros [[_ ->]|[Hin _]]; [done|by apply elem_of_nil in Hin].
  - intros [[Hc _]|[Hin Hle]]; [done|].
    destruct (py_max_spec (a :: l)) as [Hm Hml]; [done|].
    pose proof (Hle _ Hm). pose proof (Hml _ Hin). lia.
Qed.

Lemma move_tail_ret (r : nat) (gs : GameState) (sm : list string) :
  body (you gs) ≠ [] → (∀ s, s ∈ snakes (board gs) → body s ≠ []) → sm ≠ [] →
  ∃ m, move_tail r gs sm = Ret m ∧ m ∈ sm.
Proof.
  intros Hne Hss Hsm. destruct (body (you gs)) as [|hd tl] eqn:Eb; [done|].
  unfold move_tail. rewrite (chase_smaller_snake_unfold gs sm hd tl Eb).
  destruct (chase_loop_facts gs sm hd (length (body (you gs))) (snakes (board gs))
              ltac:(by rewrite Eb) Hss) as ([m|] & Hres & Hspec); rewrite Hres, bind_Ret.
  - exists m. split; [done|].
    destruct Hspec as (_ & _ & _ & _ & p & _ & _ & _ & _ & Hm & _).
    by apply path_move_spec in Hm as (_ & _ & _ & Hin).
  - by apply random_choice_ret.
Qed.

Lemma directions_cases (mv : string) (d : Z * Z) :
  (mv, d) ∈ DIRECTIONS →
  (mv = "up"%string ∧ d = (0, 1)) ∨ (mv = "down"%string ∧ d = (0, -1)) ∨
  (mv = "left"%string ∧ d = (-1, 0)) ∨ (mv = "right"%string ∧ d = (1, 0)).
Proof.
  unfold DIRECTIONS. intros H.
  repeat (apply elem_of_cons in H as [H|H]; [injection H as -> ->; tauto|]).
  by apply elem_of_nil in H.
Qed.

Lemma moving_backwards_neck (mv : string) (d : Z * Z) (my_head my_neck : coord) :
  (mv, d) ∈ DIRECTIONS → moving_backwards mv my_head my_neck = false →
  step my_head d ≠ my_neck.
Proof.
  destruct my_head as [hx hy], my_neck as [nx ny]. unfold step. simpl.
  intros Hd Hmb Heq. injection Heq as Ex Ey.
  apply directions_cases in Hd as [[-> ->]|[[-> ->]|[[-> ->]|[-> ->]]]];
    unfold moving_backwards in Hmb; simpl in Hmb;
    repeat rewrite orb_false_r in Hmb; try (apply Z.ltb_ge in Hmb); simpl in *; lia.
Qed.

(** Ends the proofs of the witnesses below: every snake of a concrete
    board has a non-empty body. *)
Ltac bodies_nonempty :=
  let s := fresh "s" in let Hs := fresh "Hs" in
  intros s Hs;
  repeat (apply elem_of_cons in Hs as [->|Hs]; [discriminate|]);
  by apply elem_of_nil in Hs.

(* ================================================================== *)
(** * Properties of the agent *)

(** C1 (amended). Given that the agent has at least two segments and every
    snake on the board has a head (a non-empty body), [move] returns one
    of the four tokens up, down, left, right, whatever the random draw.
    It does not raise, also when no move is safe, when there is no food,
    and when no path exists. Without the second condition a shorter snake
    with an empty body makes [chase_smaller_snake] raise on
    [snake["body"][-1]]. *)
Theorem move_returns_token (r : nat) (gs : GameState) :
  (2 <= length (body (you gs)))%nat →
  (∀ s, s ∈ snakes (board gs) → body s ≠ []) →
  ∃ m, move r gs = Ret m ∧ m ∈ POSSIBLE_MOVES.
Proof.
  intros Hlen Hss.
  destruct (get_safe_moves_ret gs Hlen) as (hd & nk & rest & ms & Hb & Hms & Hsub & _).
  assert (Hne : body (you gs) ≠ []) by (by rewrite Hb).
  destruct (decide (ms = [])) as [->|Hmsne].
  - unfold move. rewrite Hms, bind_Ret. cbv beta iota.
    by apply random_choice_ret.
  - rewrite (move_unfold r gs ms Hms Hmsne).
    assert (Hin : ∀ m, m ∈ ms → m ∈ POSSIBLE_MOVES)
      by (intros m Hm; by apply (elem_of_sublist ms)).
    destruct (move_tail_ret r gs ms Hne Hss Hmsne) as (mt & Hmt & Hmtin).
    destruct (food_tier_enabled gs).
    + destruct (seek_food_ret gs ms Hne) as ([m|] & Hres & Hspec);
        rewrite Hres, bind_Ret.
      * exists m. split; [done|]. by apply Hin, Hspec.
      * exists mt. split; [done|]. by apply Hin.
    + exists mt. split; [done|]. by apply Hin.
Qed.

(** C1: a snapshot where the agent has two segments but another snake has
    an empty body. [move] raises there. *)
Lemma move_raises_on_empty_snake :
  move 0 (mkGameState (mkBoard 3 3 [] [mk_you [(1, 1); (1, 0)]; mkSnake "ghost" [] 100])
            (mk_you [(1, 1); (1, 0)])) = Raise.
Proof. vm_compute. reflexivity. Qed.

Lemma move_returns_token_witness :
  ∃ m, move 0 gs_tie = Ret m ∧ m ∈ POSSIBLE_MOVES.
Proof.
  apply (move_returns_token 0 gs_tie); [simpl; lia|bodies_nonempty].
Defined.

(** C2. When the agent has a body, [is_safe x y] returns [false] exactly
    when (x, y) is off the board, or lies on a segment of the agent other
    than its last one, or is made unsafe by another snake: by lying on a
    non-tail segment of it, or by being one Manhattan step from its head
    when that snake is at least as long as the agent. The result is a
    plain value. *)
Theorem is_safe_spec (x y : Z) (gs : GameState) :
  body (you gs) ≠ [] →
  ∃ b, is_safe x y gs = Ret b ∧
    (b = false ↔
     (x < 0 ∨ y < 0 ∨ width (board gs) <= x ∨ height (board gs) <= y) ∨
     (x, y) ∈ removelast (body (you gs)) ∨
     ∃ s, s ∈ snakes (board gs) ∧ unsafe_by_snake x y gs s).
Proof.
  intros Hne. unfold is_safe.
  destruct ((x <? 0) || (y <? 0) || (width (board gs) <=? x) || (height (board gs) <=? y))
    eqn:Eb.
  - exists false. split; [done|]. split; [intros _; left|done].
    rewrite !orb_true_iff, ?Z.ltb_lt, ?Z.leb_le in Eb. tauto.
  - rewrite !orb_false_iff, ?Z.ltb_ge, ?Z.leb_gt in Eb.
    destruct (existsb (λ part, coord_eqb part (x, y)) (py_init (body (you gs)))) eqn:Ee.
    + exists false. split; [done|]. split; [intros _; right; left|done].
      apply existsb_coord_in in Ee. exact Ee.
    + destruct (check_other_snakes_spec x y gs (snakes (board gs)) Hne) as (b & Hb & Hiff).
      exists b. split; [done|]. rewrite Hiff. split; [intros H; by right; right|].
      intros [H|[H|H]]; [lia| |done].
      apply existsb_coord_in in H. unfold py_init in Ee. congruence.
Qed.

Lemma is_safe_spec_witness :
  ∃ b, is_safe 0 2 gs_tie = Ret b ∧
    (b = false ↔
     (0 < 0 ∨ 2 < 0 ∨ width (board gs_tie) <= 0 ∨ height (board gs_tie) <= 2) ∨
     (0, 2) ∈ removelast (body (you gs_tie)) ∨
     ∃ s, s ∈ snakes (board gs_tie) ∧ unsafe_by_snake 0 2 gs_tie s).
Proof. apply (is_safe_spec 0 2 gs_tie). simpl. discriminate. Defined.

(** C3. When the agent has a body: if some walk leads from [start] to
    [goal] by unit steps through cells that pass [is_safe] (all but
    [start]), [find_path] returns such a walk, starting at [start] and
    ending at [goal], of least length; if there is none it returns
    [None], in particular when [goal] is unsafe and differs from
    [start]. *)
Theorem find_path_shortest (start goal : coord) (gs : GameState) :
  body (you gs) ≠ [] →
  ∃ r, find_path start goal gs = Ret r ∧
    ((∃ q, walk (λ x y, is_safe x y gs) start goal q) →
       ∃ p, r = Some p ∧ head p = Some start ∧ last p = Some goal ∧
            walk (λ x y, is_safe x y gs) start goal p ∧
            ∀ q, walk (λ x y, is_safe x y gs) start goal q → (length p <= length q)%nat) ∧
    ((¬ ∃ q, walk (λ x y, is_safe x y gs) start goal q) → r = None) ∧
    (goal ≠ start → is_safe goal.1 goal.2 gs = Ret false → r = None).
Proof.
  intros Hne. destruct (find_path_correct start goal gs Hne) as (r & Hr & Hout).
  exists r. split; [done|]. unfold loop_outcome in Hout.
  assert (Hnone : (¬ ∃ q, walk (λ x y, is_safe x y gs) start goal q) → r = None).
  { intros Hno. destruct r as [p|]; [|done]. exfalso. apply Hno. exists p. apply Hout. }
  split; [|split; [exact Hnone|]].
  - intros [q Hq]. destruct r as [p|].
    + destruct Hout as [Hw Hmin]. exists p.
      destruct (walk_ends _ _ _ _ Hw) as [Hh Hl]. auto.
    + exfalso. by apply (Hout q).
  - intros Hng Hunsafe. apply Hnone. intros [q Hq].
    pose proof (walk_last_safe _ _ _ _ Hq Hng) as Hs. unfold safe_cell in Hs.
    cbv beta in Hs. congruence.
Qed.

Lemma find_path_shortest_witness :
  ∃ r, find_path (1, 1) (0, 2) gs_tie = Ret r ∧
    ((∃ q, walk (λ x y, is_safe x y gs_tie) (1, 1) (0, 2) q) →
       ∃ p, r = Some p ∧ head p = Some (1, 1) ∧ last p = Some (0, 2) ∧
            walk (λ x y, is_safe x y gs_tie) (1, 1) (0, 2) p ∧
            ∀ q, walk (λ x y, is_safe x y gs_tie) (1, 1) (0, 2) q →
                 (length p <= length q)%nat) ∧
    ((¬ ∃ q, walk (λ x y, is_safe x y gs_tie) (1, 1) (0, 2) q) → r = None) ∧
    ((0, 2) ≠ (1, 1) → is_safe (0, 2).1 (0, 2).2 gs_tie = Ret false → r = None).
Proof. apply (find_path_shortest (1, 1) (0, 2) gs_tie). simpl. discriminate. Defined.

(** C4: in [gs_chase] the first shorter snake "a" has its tail at (0,0),
    which no path reaches. [chase_smaller_snake] then goes on to the
    second shorter snake "b" and returns the move towards its tail. *)
Lemma chase_tries_later_snakes :
  get_safe_moves gs_chase = Ret ["up"; "left"; "right"]%string ∧
  find_path (3, 3) (0, 0) gs_chase = Ret None ∧
  find_path (3, 3) (2, 0) gs_chase = Ret (Some [(3, 3); (2, 3); (2, 2); (2, 1); (2, 0)]) ∧
  chase_smaller_snake gs_chase ["up"; "left"; "right"]%string = Ret (Some "left"%string) ∧
  move 0 gs_chase = Ret "left"%string.
Proof. repeat split; vm_compute; reflexivity. Qed.

(** C4 (amended). When the agent and every snake have a body,
    [chase_smaller_snake] goes through the snakes in order. It returns
    [Some m] for the first strictly shorter snake whose tail has a path
    whose translated first step [m] is a safe move; every shorter snake
    before it failed (no path, or a move that is not safe). It returns
    [None] only when every strictly shorter snake fails. *)
Theorem chase_smaller_snake_spec (gs : GameState) (sm : list string) :
  body (you gs) ≠ [] → (∀ s, s ∈ snakes (board gs) → body s ≠ []) →
  ∃ head tl res,
    body (you gs) = head :: tl ∧ chase_smaller_snake gs sm = Ret res ∧
    match res with
    | Some m =>
        ∃ l1 s l2 tail p, snakes (board gs) = l1 ++ s :: l2 ∧
          (length (body s) < length (body (you gs)))%nat ∧
          last (body s) = Some tail ∧ find_path head tail gs = Ret p ∧
          path_move p head sm = Some m ∧
          ∀ s', s' ∈ l1 → (length (body s') < length (body (you gs)))%nat →
            ∃ tail' p', last (body s') = Some tail' ∧ find_path head tail' gs = Ret p' ∧
                        path_move p' head sm = None
    | None =>
        ∀ s, s ∈ snakes (board gs) → (length (body s) < length (body (you gs)))%nat →
          ∃ tail p, last (body s) = Some tail ∧ find_path head tail gs = Ret p ∧
                    path_move p head sm = None
    end.
Proof.
  intros Hne Hss. destruct (body (you gs)) as [|hd tl] eqn:Eb; [done|].
  destruct (chase_loop_facts gs sm hd (length (body (you gs))) (snakes (board gs))
              ltac:(by rewrite Eb) Hss) as (res & Hres & Hspec).
  exists hd, tl, res. split; [done|]. split; [|by rewrite Eb in Hspec].
  rewrite (chase_smaller_snake_unfold gs sm hd tl Eb). exact Hres.
Qed.

Lemma chase_smaller_snake_spec_witness :
  ∃ head tl res,
    body (you gs_chase) = head :: tl ∧
    chase_smaller_snake gs_chase ["up"; "left"; "right"]%string = Ret res ∧
    match res with
    | Some m =>
        ∃ l1 s l2 tail p, snakes (board gs_chase) = l1 ++ s :: l2 ∧
          (length (body s) < length (body (you gs_chase)))%nat ∧
          last (body s) = Some tail ∧ find_path head tail gs_chase = Ret p ∧
          path_move p head ["up"; "left"; "right"]%string = Some m ∧
          ∀ s', s' ∈ l1 → (length (body s') < length (body (you gs_chase)))%nat →
            ∃ tail' p', last (body s') = Some tail' ∧
                        find_path head tail' gs_chase = Ret p' ∧
                        path_move p' head ["up"; "left"; "right"]%string = None
    | None =>
        ∀ s, s ∈ snakes (board gs_chase) →
          (length (body s) < length (body (you gs_chase)))%nat →
          ∃ tail p, last (body s) = Some tail ∧ find_path head tail gs_chase = Ret p ∧
                    path_move p head ["up"; "left"; "right"]%string = None
    end.
Proof.
  apply (chase_smaller_snake_spec gs_chase ["up"; "left"; "right"]%string);
    [simpl; discriminate|bodies_nonempty].
Defined.

(** C5. With a non-empty list [sm] of safe moves, and [maxo] the largest
    length of another snake (0 when there is none): the food tier is
    enabled exactly when [health < 30] or [length <= maxo + 2]. When it
    is disabled [move] goes straight to the chase tier; when it is
    enabled [move] returns the food move if [seek_food] gives one and
    goes on to the chase tier otherwise. [seek_food] gives [None] without
    food. Otherwise it paths to the first food item of least Manhattan
    distance from the head (every item before it is strictly farther,
    every item after it is not closer), and returns the translated first
    step of the path only when the path exists and that step is in
    [sm]. *)
Theorem food_tier_rule (r : nat) (gs : GameState) (sm : list string) (maxo : nat) :
  get_safe_moves gs = Ret sm → sm ≠ [] → body (you gs) ≠ [] →
  ((other_snakes_lengths gs = [] ∧ maxo = 0%nat) ∨
   (maxo ∈ other_snakes_lengths gs ∧ ∀ l, l ∈ other_snakes_lengths gs → (l <= maxo)%nat)) →
  (food_tier_enabled gs = true ↔
   health (you gs) < 30 ∨ (length (body (you gs)) <= maxo + 2)%nat) ∧
  (food_tier_enabled gs = false → move r gs = move_tail r gs sm) ∧
  (food_tier_enabled gs = true →
   move r gs = (fm <- seek_food gs sm ;;
                match fm with Some mv => Ret mv | None => move_tail r gs sm end)) ∧
  (food (board gs) = [] → seek_food gs sm = Ret None) ∧
  (food (board gs) ≠ [] →
   ∃ head tl l1 c l2 p,
     body (you gs) = head :: tl ∧ food (board gs) = l1 ++ c :: l2 ∧
     (∀ f, f ∈ l1 → manhattan_distance c head < manhattan_distance f head) ∧
     (∀ f, f ∈ l2 → manhattan_distance c head <= manhattan_distance f head) ∧
     find_path head c gs = Ret p ∧ seek_food gs sm = Ret (path_move p head sm)) ∧
  (∀ p head m, path_move p head sm = Some m ↔
   ∃ ps, p = Some ps ∧ get_move_from_path ps head = Some m ∧ m ∈ sm).
Proof.
  intros Hsm Hsmne Hne Hmax.
  destruct (seek_food_facts gs sm Hne) as [Hf0 Hf1].
  split; [|split; [|split; [|split; [exact Hf0|split; [exact Hf1|]]]]].
  - unfold food_tier_enabled. rewrite (max_snake_length_spec gs maxo Hmax).
    rewrite orb_true_iff, Z.ltb_lt, Nat.leb_le. done.
  - intros E. rewrite (move_unfold r gs sm Hsm Hsmne), E. done.
  - intros E. rewrite (move_unfold r gs sm Hsm Hsmne), E. done.
  - intros p head m. apply path_move_spec.
Qed.

Lemma food_tier_rule_witness :
  let sm := ["up"; "left"; "right"]%string in
  (food_tier_enabled gs_food = true ↔
   health (you gs_food) < 30 ∨ (length (body (you gs_food)) <= 0 + 2)%nat) ∧
  (food_tier_enabled gs_food = false → move 0 gs_food = move_tail 0 gs_food sm) ∧
  (food_tier_enabled gs_food = true →
   move 0 gs_food = (fm <- seek_food gs_food sm ;;
                     match fm with Some mv => Ret mv | None => move_tail 0 gs_food sm end)) ∧
  (food (board gs_food) = [] → seek_food gs_food sm = Ret None) ∧
  (food (board gs_food) ≠ [] →
   ∃ head tl l1 c l2 p,
     body (you gs_food) = head :: tl ∧ food (board gs_food) = l1 ++ c :: l2 ∧
     (∀ f, f ∈ l1 → manhattan_distance c head < manhattan_distance f head) ∧
     (∀ f, f ∈ l2 → manhattan_distance c head <= manhattan_distance f head) ∧
     find_path head c gs_food = Ret p ∧ seek_food gs_food sm = Ret (path_move p head sm)) ∧
  (∀ p head m, path_move p head sm = Some m ↔
   ∃ ps, p = Some ps ∧ get_move_from_path ps head = Some m ∧ m ∈ sm).
Proof.
  intros sm. apply (food_tier_rule 0 gs_food sm 0).
  - vm_compute. reflexivity.
  - simpl. discriminate.
  - simpl. discriminate.
  - left. split; reflexivity.
Defined.

(** C6. When the agent has at least two segments, [get_safe_moves]
    returns a list of moves, taken in the order up, down, left, right
    (a sublist of [POSSIBLE_MOVES], possibly empty). No move in it leads
    from the head onto the neck, and every move in it leads to a cell
    that passes [is_safe]. *)
Theorem get_safe_moves_spec (gs : GameState) :
  (2 <= length (body (you gs)))%nat →
  ∃ my_head my_neck rest ms,
    body (you gs) = my_head :: my_neck :: rest ∧ get_safe_moves gs = Ret ms ∧
    ms `sublist_of` POSSIBLE_MOVES ∧
    ∀ mv d, mv ∈ ms → (mv, d) ∈ DIRECTIONS →
      step my_head d ≠ my_neck ∧
      is_safe (step my_head d).1 (step my_head d).2 gs = Ret true.
Proof.
  intros Hlen.
  destruct (get_safe_moves_ret gs Hlen) as (hd & nk & rest & ms & Hb & Hms & Hsub & Hall).
  exists hd, nk, rest, ms. split; [done|]. split; [done|]. split; [done|].
  intros mv d Hmv Hd. destruct (Hall mv Hmv) as (d0 & Hd0 & Hmb & Hsafe).
  assert (d0 = d) as <-.
  { apply directions_cases in Hd as [[-> ->]|[[-> ->]|[[-> ->]|[-> ->]]]];
      apply directions_cases in Hd0 as [[E ->]|[[E ->]|[[E ->]|[E ->]]]];
      done. }
  split; [by apply (moving_backwards_neck mv d0 hd nk)|exact Hsafe].
Qed.

Lemma get_safe_moves_spec_witness :
  ∃ my_head my_neck rest ms,
    body (you gs_tie) = my_head :: my_neck :: rest ∧ get_safe_moves gs_tie = Ret ms ∧
    ms `sublist_of` POSSIBLE_MOVES ∧
    ∀ mv d, mv ∈ ms → (mv, d) ∈ DIRECTIONS →
      step my_head d ≠ my_neck ∧
      is_safe (step my_head d).1 (step my_head d).2 gs_tie = Ret true.
Proof. apply (get_safe_moves_spec gs_tie). simpl. lia. Defined.

(** C7: on the 2 x 5 board [gs_restack], from (1,4) to the unreachable
    (0,0), the search pops 11 nodes, more than the 10 cells of the board,
    and it pops (1,1) and (1,2) twice. *)
Lemma find_path_reexpands :
  find_path_traced (1, 4) (0, 0) gs_restack =
    Ret (None, [(1, 4); (0, 4); (0, 3); (0, 2); (0, 1); (1, 3); (1, 2); (1, 1); (1, 0);
                (1, 1); (1, 2)]) ∧
  (Z.to_nat (width (board gs_restack) * height (board gs_restack)) < 11)%nat ∧
  ¬ NoDup [(1, 4); (0, 4); (0, 3); (0, 2); (0, 1); (1, 3); (1, 2); (1, 1); (1, 0);
           (1, 1); (1, 2)].
Proof.
  split; [vm_compute; reflexivity|]. split; [vm_compute; lia|].
  apply (bool_decide_eq_false (NoDup _)). vm_compute. reflexivity.
Qed.

(** C7 (amended). When the agent has a body, [find_path] terminates for
    every start and goal: the loop never runs out of its fuel. The
    number of popped (expanded) nodes is at most
    [2 (W H + 1)^2 + 1] for a [W x H] board ([cells_bound gs = W H + 1]).
    A cell may be expanded more than once: the loop keeps no closed set
    and does not skip stale heap entries. *)
Theorem find_path_expansion_bound (start goal : coord) (gs : GameState) :
  body (you gs) ≠ [] →
  ∃ r exp, find_path_traced start goal gs = Ret (r, exp) ∧
    find_path start goal gs = Ret r ∧
    (length exp <= 2 * cells_bound gs * cells_bound gs + 1)%nat.
Proof.
  intros Hne. destruct (find_path_traced_correct start goal gs Hne) as (r & exp & Hr & Hlen & _).
  exists r, exp. split; [done|]. split; [|done]. unfold find_path. by rewrite Hr.
Qed.

Lemma find_path_expansion_bound_witness :
  ∃ r exp, find_path_traced (1, 4) (0, 0) gs_restack = Ret (r, exp) ∧
    find_path (1, 4) (0, 0) gs_restack = Ret r ∧
    (length exp <= 2 * cells_bound gs_restack * cells_bound gs_restack + 1)%nat.
Proof. apply (find_path_expansion_bound (1, 4) (0, 0) gs_restack). simpl. discriminate. Defined.

(** C8: on [gs_tie], from (1,1) to (0,2), the first expansion pushes the
    up neighbour (1,2) and the left neighbour (0,1), both at distance 1
    with the same priority 1 + 1. The search then expands (0,1), the
    left one, since its cell is the smaller pair. *)
Lemma heap_tie_by_coord :
  step (1, 1) (0, 1) = (1, 2) ∧ step (1, 1) (-1, 0) = (0, 1) ∧
  manhattan_distance (1, 2) (0, 2) = manhattan_distance (0, 1) (0, 2) ∧
  find_path_traced (1, 1) (0, 2) gs_tie =
    Ret (Some [(1, 1); (0, 1); (0, 2)], [(1, 1); (0, 1); (0, 2)]).
Proof. repeat split; vm_compute; reflexivity. Qed.

(** C8 (amended). The heap pops an entry that is least in the order of
    Python tuples [(f, (x, y))]: on equal priority [f] the entry with
    the smaller [x], then the smaller [y], comes first. Neither the
    distance so far nor the direction order takes part. *)
Theorem heappop_min_entry (h h' : list entry) (e : entry) :
  heappop h = Some (e, h') →
  e ∈ h ∧ ∀ x, x ∈ h →
    e.1 < x.1 ∨ (e.1 = x.1 ∧ (e.2.1 < x.2.1 ∨ (e.2.1 = x.2.1 ∧ e.2.2 <= x.2.2))).
Proof.
  intros Hpop. destruct (heappop_spec h h' e Hpop) as (Hin & Hmin & _).
  split; [done|]. intros x Hx. exact (Hmin x Hx).
Qed.

Lemma heappop_min_entry_witness :
  let h := [(4, (2, 1)); (2, (0, 1)); (4, (1, 0)); (2, (1, 2))] in
  heappop h = Some ((2, (0, 1)), [(4, (2, 1)); (4, (1, 0)); (2, (1, 2))]) ∧
  (2, (0, 1)) ∈ h ∧ ∀ x, x ∈ h →
    2 < x.1 ∨ (2 = x.1 ∧ (0 < x.2.1 ∨ (0 = x.2.1 ∧ 1 <= x.2.2))).
Proof.
  intros h. assert (Hp : heappop h = Some ((2, (0, 1)), [(4, (2, 1)); (4, (1, 0)); (2, (1, 2))]))
    by (vm_compute; reflexivity).
  split; [exact Hp|]. exact (heappop_min_entry h _ (2, (0, 1)) Hp).
Defined.

(** C9. When [get_safe_moves] gives a non-empty list [sm] and the move
    comes from the food tier ([seek_food] gives [Some m] with the tier
    enabled) or from the chase tier ([chase_smaller_snake] gives
    [Some m] after the food tier gave nothing), two calls of [move] with
    any two random draws return the same [m]. *)
Theorem move_deterministic_tiers (gs : GameState) (sm : list string) (m : string)
    (r1 r2 : nat) :
  get_safe_moves gs = Ret sm → sm ≠ [] →
  ((food_tier_enabled gs = true ∧ seek_food gs sm = Ret (Some m)) ∨
   ((food_tier_enabled gs = false ∨ seek_food gs sm = Ret None) ∧
    chase_smaller_snake gs sm = Ret (Some m))) →
  move r1 gs = Ret m ∧ move r2 gs = Ret m.
Proof.
  intros Hsm Hne Htier.
  assert (Hone : ∀ r, move r gs = Ret m).
  { intros r. rewrite (move_unfold r gs sm Hsm Hne).
    destruct Htier as [[-> Hs]|[Hf Hc]].
    - by rewrite Hs, bind_Ret.
    - assert (Ht : move_tail r gs sm = Ret m) by (unfold move_tail; by rewrite Hc, bind_Ret).
      destruct (food_tier_enabled gs) eqn:E; [|done].
      destruct Hf as [Hf|Hf]; [discriminate|]. by rewrite Hf, bind_Ret. }
  split; apply Hone.
Qed.

Lemma move_deterministic_tiers_witness :
  move 0 gs_food = Ret "left"%string ∧ move 1 gs_food = Ret "left"%string.
Proof.
  apply (move_deterministic_tiers gs_food ["up"; "left"; "right"]%string "left"%string 0 1).
  - vm_compute. reflexivity.
  - simpl. discriminate.
  - left. split; vm_compute; reflexivity.
Defined.

(** C10. For every cell [c] and snapshot, [find_path c c] returns [[c]]:
    the goal test on the popped start comes before any call of
    [is_safe]. *)
Theorem find_path_same_cell (c : coord) (gs : GameState) :
  find_path c c gs = Ret (Some [c]).
Proof.
  unfold find_path, find_path_traced, astar, search_fuel, cells_bound.
  replace (2 * S (Z.to_nat (width (board gs)) * Z.to_nat (height (board gs))) *
           S (Z.to_nat (width (board gs)) * Z.to_nat (height (board gs))) + 2)%nat
    with (S (2 * S (Z.to_nat (width (board gs)) * Z.to_nat (height (board gs))) *
             S (Z.to_nat (width (board gs)) * Z.to_nat (height (board gs))) + 1))%nat
    by lia.
  simpl. destruct (decide (c = c)) as [_|]; [|done]. simpl.
  by rewrite lookup_empty.
Qed.

(* ================================================================== *)
(** * Further properties of the code *)

(** ** Helper facts *)

Lemma bind_Ret_inv {A B} (m : M A) (k : A → M B) (b : B) :
  bind m k = Ret b → ∃ a, m = Ret a ∧ k a = Ret b.
Proof. destruct m as [a| |]; simpl; [eauto|discriminate|discriminate]. Qed.

(** Membership in a concrete list of directions. *)
Ltac dir_in := unfold DIRECTIONS; repeat (first [by left | right]).

Lemma get_move_from_path_step (mv : string) (d : Z * Z) (h p0 : coord) (rest : list coord) :
  (mv, d) ∈ DIRECTIONS → get_move_from_path (p0 :: step h d :: rest) h = Some mv.
Proof.
  destruct h as [hx hy]. intros Hd.
  apply directions_cases in Hd as [[-> ->]|[[-> ->]|[[-> ->]|[-> ->]]]];
    unfold get_move_from_path, step; simpl;
    repeat match goal with |- context [Z.ltb ?a ?b] => destruct (Z.ltb_spec a b); try lia end;
    reflexivity.
Qed.

Lemma offsets_named (d : Z * Z) : d ∈ offsets → ∃ mv, (mv, d) ∈ DIRECTIONS.
Proof.
  intros Hd. apply offsets_cases in Hd as [-> | [-> | [-> | ->]]];
    [exists "up"%string|exists "down"%string|exists "left"%string|exists "right"%string];
    dir_in.
Qed.

Lemma not_NoDup_split {A} `{EqDecision A} (l : list A) :
  ¬ NoDup l → ∃ l1 x l2 l3, l = l1 ++ x :: l2 ++ x :: l3.
Proof.
  induction l as [|x l IH]; intros Hn.
  - exfalso. apply Hn. constructor.
  - destruct (decide (x ∈ l)) as [Hin|Hnin].
    + apply list_elem_of_split in Hin as (l2 & l3 & ->). by exists [], x, l2, l3.
    + destruct IH as (l1 & y & l2 & l3 & ->).
      { intros Hd. apply Hn. by constructor. }
      by exists (x :: l1), y, l2, l3.
Qed.

Section WalkFacts.

Variable safe : Z → Z → M bool.

Lemma walk_first_step (a b : coord) (p : list coord) :
  walk safe a b p → b ≠ a →
  ∃ d q, d ∈ offsets ∧ safe_cell safe (step a d) ∧ p = a :: step a d :: q.
Proof.
  destruct 1 as [a|a b p d Hd Hs Hw]; intros Hne; [done|].
  destruct (walk_ends _ _ _ _ Hw) as [Hh _].
  destruct p as [|c q]; [discriminate|]. simpl in Hh. injection Hh as ->.
  by exists d, q.
Qed.

Lemma walk_cells_safe (a b : coord) (p : list coord) (c : coord) :
  walk safe a b p → c ∈ p → c ≠ a → safe_cell safe c.
Proof.
  induction 1 as [a|a b p d Hd Hs Hw IH]; intros Hc Hne.
  - apply elem_of_cons in Hc as [->|Hc]; [done|by apply elem_of_nil in Hc].
  - apply elem_of_cons in Hc as [->|Hc]; [done|].
    destruct (decide (c = step a d)) as [->|Hne']; [done|]. by apply IH.
Qed.

Lemma walk_suffix (a b c : coord) (l1 l2 : list coord) :
  walk safe a b (l1 ++ c :: l2) → walk safe c b (c :: l2).
Proof.
  revert a. induction l1 as [|x l1 IH]; intros a Hw; simpl in Hw.
  - destruct (walk_ends _ _ _ _ Hw) as [Hh _]. simpl in Hh. injection Hh as ->. exact Hw.
  - inversion Hw; subst; [destruct l1; discriminate|]. eapply IH. eassumption.
Qed.

Lemma walk_splice (a b b' c : coord) (l1 l2 l3 : list coord) :
  walk safe a b (l1 ++ c :: l2) → walk safe c b' (c :: l3) → walk safe a b' (l1 ++ c :: l3).
Proof.
  revert a. induction l1 as [|x l1 IH]; intros a Hw Hc; simpl in *.
  - destruct (walk_ends _ _ _ _ Hw) as [Hh _]. simpl in Hh. injection Hh as ->. exact Hc.
  - inversion Hw; subst; [destruct l1; discriminate|].
    eapply walk_step; [eassumption|eassumption|]. eapply IH; eassumption.
Qed.

(** A walk that repeats a cell can be shortened by cutting out the loop. *)
Lemma walk_shorter (a b : coord) (p : list coord) :
  walk safe a b p → ¬ NoDup p → ∃ q, walk safe a b q ∧ (length q < length p)%nat.
Proof.
  intros Hw Hnd. destruct (not_NoDup_split p Hnd) as (l1 & c & l2 & l3 & ->).
  exists (l1 ++ c :: l3). split.
  - apply (walk_splice a b b c l1 (l2 ++ c :: l3) l3); [exact Hw|].
    apply (walk_suffix a b c (l1 ++ c :: l2) l3). rewrite <- app_assoc. exact Hw.
  - rewrite !length_app. simpl. rewrite length_app. simpl. lia.
Qed.

End WalkFacts.

Lemma find_path_self (c : coord) (gs : GameState) : find_path c c gs = Ret (Some [c]).
Proof.
  unfold find_path, find_path_traced, astar, search_fuel, cells_bound.
  replace (2 * S (Z.to_nat (width (board gs)) * Z.to_nat (height (board gs))) *
           S (Z.to_nat (width (board gs)) * Z.to_nat (height (board gs))) + 2)%nat
    with (S (2 * S (Z.to_nat (width (board gs)) * Z.to_nat (height (board gs))) *
             S (Z.to_nat (width (board gs)) * Z.to_nat (height (board gs))) + 1))%nat
    by lia.
  simpl. destruct (decide (c = c)) as [_|]; [|done]. simpl.
  by rewrite lookup_empty.
Qed.

Lemma random_choice_in {A} (r : nat) (l : list A) (a : A) :
  random_choice r l = Ret a → a ∈ l.
Proof.
  intros H. destruct l as [|x xs]; [discriminate|].
  destruct (random_choice_ret r (x :: xs)) as (a' & Ha' & Hin); [done|].
  rewrite Ha' in H. by injection H as <-.
Qed.

Lemma seek_food_some_in (gs : GameState) (sm : list string) (m : string) :
  seek_food gs sm = Ret (Some m) → m ∈ sm.
Proof.
  unfold seek_food. intros H. apply bind_Ret_inv in H as (hd & _ & H).
  cbv beta zeta in H. revert H.
  destruct (food (board gs)) as [|f0 fs]; intros H; [discriminate|].
  apply bind_Ret_inv in H as (p & _ & H). injection H as H.
  by apply path_move_spec in H as (_ & _ & _ & Hin).
Qed.

Lemma chase_loop_some_in (gs : GameState) (sm : list string) (head : coord) (n : nat)
    (ss : list Snake) (m : string) :
  chase_loop gs sm head n ss = Ret (Some m) → m ∈ sm.
Proof.
  induction ss as [|s ss IH]; simpl; intros H; [discriminate|].
  destruct (length (body s) <? n)%nat; [|by apply IH].
  apply bind_Ret_inv in H as (tail & _ & H). cbv beta in H.
  apply bind_Ret_inv in H as (p & _ & H). cbv beta in H.
  destruct (path_move p head sm) as [m'|] eqn:E; [|by apply IH].
  injection H as <-. by apply path_move_spec in E as (_ & _ & _ & Hin).
Qed.

Lemma get_safe_moves_len (gs : GameState) (sm : list string) :
  get_safe_moves gs = Ret sm → (2 <= length (body (you gs)))%nat.
Proof.
  unfold get_safe_moves, py_index.
  destruct (body (you gs)) as [|a [|b rest]]; simpl; intros H; try discriminate; lia.
Qed.

(** [is_safe] unfolded on any snapshot. *)
Lemma is_safe_unfold (x y : Z) (g : GameState) :
  is_safe x y g =
  if (x <? 0) || (y <? 0) || (width (board g) <=? x) || (height (board g) <=? y) then Ret false
  else if existsb (λ part, coord_eqb part (x, y)) (py_init (body (you g))) then Ret false
  else check_other_snakes x y g (snakes (board g)).
Proof. reflexivity. Qed.

(** ** [get_move_from_path] *)

(** X1. [get_move_from_path] inverts a step of [DIRECTIONS]: when the
    second cell of the path is the head moved by the offset of direction
    [mv], the function returns [mv], whatever the first cell and the rest
    of the path. *)
Theorem get_move_from_path_direction (mv : string) (d : Z * Z) (my_head p0 : coord)
    (rest : list coord) :
  (mv, d) ∈ DIRECTIONS → get_move_from_path (p0 :: step my_head d :: rest) my_head = Some mv.
Proof. apply get_move_from_path_step. Qed.

Lemma get_move_from_path_direction_witness :
  ("left", (-1, 0))%string ∈ DIRECTIONS ∧
  get_move_from_path [(2, 3); step (2, 3) (-1, 0); (0, 3)] (2, 3) = Some "left"%string.
Proof.
  assert (H : ("left", (-1, 0))%string ∈ DIRECTIONS)
    by (unfold DIRECTIONS; simpl; right; right; left).
  split; [exact H|]. exact (get_move_from_path_direction _ _ (2, 3) (2, 3) [(0, 3)] H).
Defined.

(** X2. [get_move_from_path] returns no move exactly when the path has
    fewer than two cells or its second cell is the head itself (the
    function then falls off its end). *)
Theorem get_move_from_path_none (path : list coord) (my_head : coord) :
  get_move_from_path path my_head = None ↔
  (length path < 2)%nat ∨ path !! 1%nat = Some my_head.
Proof.
  destruct path as [|p0 [|[nx ny] rest]]; simpl.
  - split; [intros _; left; lia|done].
  - split; [intros _; left; lia|done].
  - destruct my_head as [hx hy]. simpl.
    repeat match goal with |- context [Z.ltb ?a ?b] => destruct (Z.ltb_spec a b) end;
    first
      [ split; [intros [=]|intros [Hl|Hl]; [lia|injection Hl as E1 E2; lia]]
      | split; [intros _; right; repeat f_equal; lia|done] ].
Qed.

(** X3. A move returned by [get_move_from_path] is a direction whose
    offset takes the head one step closer, in Manhattan distance, to the
    second cell of the path. A horizontal move is chosen whenever that
    cell lies in another column. *)
Theorem get_move_from_path_toward (path : list coord) (my_head : coord) (mv : string) :
  get_move_from_path path my_head = Some mv →
  ∃ next d, path !! 1%nat = Some next ∧ (mv, d) ∈ DIRECTIONS ∧
    manhattan_distance (step my_head d) next + 1 = manhattan_distance my_head next ∧
    (next.1 ≠ my_head.1 → d.2 = 0).
Proof.
  destruct path as [|p0 [|[nx ny] rest]]; simpl; try discriminate.
  destruct my_head as [hx hy]. unfold manhattan_distance, step. simpl.
  destruct (Z.ltb_spec hx nx).
  { intros [= <-]. exists (nx, ny), (1, 0). simpl.
    split; [done|]. split; [dir_in|]. split; [lia|done]. }
  destruct (Z.ltb_spec nx hx).
  { intros [= <-]. exists (nx, ny), (-1, 0). simpl.
    split; [done|]. split; [dir_in|]. split; [lia|done]. }
  destruct (Z.ltb_spec hy ny).
  { intros [= <-]. exists (nx, ny), (0, 1). simpl.
    split; [done|]. split; [dir_in|]. split; [lia|intros; lia]. }
  destruct (Z.ltb_spec ny hy).
  { intros [= <-]. exists (nx, ny), (0, -1). simpl.
    split; [done|]. split; [dir_in|]. split; [lia|intros; lia]. }
  discriminate.
Qed.

Lemma get_move_from_path_toward_witness :
  get_move_from_path [(1, 1); (1, 3)] (1, 1) = Some "up"%string ∧
  ∃ next d, [(1, 1); (1, 3)] !! 1%nat = Some next ∧ ("up"%string, d) ∈ DIRECTIONS ∧
    manhattan_distance (step (1, 1) d) next + 1 = manhattan_distance (1, 1) next ∧
    (next.1 ≠ (1, 1).1 → d.2 = 0).
Proof.
  assert (H : get_move_from_path [(1, 1); (1, 3)] (1, 1) = Some "up"%string) by reflexivity.
  split; [exact H|]. exact (get_move_from_path_toward _ _ _ H).
Defined.

(** ** [find_path] *)

(** X4. When [find_path] returns a path to a goal other than the start,
    the path leaves the start by one step of [DIRECTIONS] onto a cell that
    passes [is_safe], and [get_move_from_path] on the path returns the
    name of that step. *)
Theorem find_path_first_move (start goal : coord) (gs : GameState) (p : list coord) :
  body (you gs) ≠ [] → find_path start goal gs = Ret (Some p) → goal ≠ start →
  ∃ mv d rest, (mv, d) ∈ DIRECTIONS ∧ p = start :: step start d :: rest ∧
    get_move_from_path p start = Some mv ∧
    is_safe (step start d).1 (step start d).2 gs = Ret true.
Proof.
  intros Hne Hp Hng.
  destruct (find_path_correct start goal gs Hne) as (r & Hr & Hout).
  rewrite Hp in Hr. injection Hr as <-. destruct Hout as [Hw _].
  destruct (walk_first_step _ start goal p Hw Hng) as (d & q & Hd & Hs & ->).
  destruct (offsets_named d Hd) as [mv Hmv].
  exists mv, d, q. split; [done|]. split; [done|].
  split; [by apply get_move_from_path_step|]. exact Hs.
Qed.

Lemma find_path_first_move_witness :
  ∃ mv d rest, (mv, d) ∈ DIRECTIONS ∧ [(1, 1); (0, 1); (0, 2)] = (1, 1) :: step (1, 1) d :: rest ∧
    get_move_from_path [(1, 1); (0, 1); (0, 2)] (1, 1) = Some mv ∧
    is_safe (step (1, 1) d).1 (step (1, 1) d).2 gs_tie = Ret true.
Proof.
  apply (find_path_first_move (1, 1) (0, 2) gs_tie [(1, 1); (0, 1); (0, 2)]).
  - simpl. discriminate.
  - vm_compute. reflexivity.
  - discriminate.
Defined.

(** X5. When the goal differs from the start and none of the four
    neighbours of the start passes [is_safe], [find_path] returns [None]:
    the start is popped, nothing is pushed and the heap runs empty. *)
Theorem find_path_enclosed (start goal : coord) (gs : GameState) :
  body (you gs) ≠ [] → goal ≠ start →
  (∀ d, d ∈ offsets → is_safe (step start d).1 (step start d).2 gs = Ret false) →
  find_path start goal gs = Ret None.
Proof.
  intros Hne Hng Hall.
  destruct (find_path_correct start goal gs Hne) as ([p|] & Hr & Hout); [|done].
  destruct Hout as [Hw _].
  destruct (walk_first_step _ start goal p Hw Hng) as (d & q & Hd & Hs & _).
  pose proof (Hall d Hd) as Hf. unfold safe_cell in Hs. cbv beta in Hs. congruence.
Qed.

Lemma find_path_enclosed_witness : find_path (0, 0) (4, 4) gs_chase = Ret None.
Proof.
  apply find_path_enclosed.
  - simpl. discriminate.
  - discriminate.
  - intros d Hd. apply offsets_cases in Hd as [-> | [-> | [-> | ->]]];
      vm_compute; reflexivity.
Defined.

(** X6. A path returned by [find_path] repeats no cell, has at least
    [manhattan_distance start goal + 1] cells, and every cell of it other
    than the start lies on the board. *)
Theorem find_path_simple (start goal : coord) (gs : GameState) (p : list coord) :
  body (you gs) ≠ [] → find_path start goal gs = Ret (Some p) →
  NoDup p ∧ manhattan_distance start goal + 1 <= Z.of_nat (length p) ∧
  ∀ c, c ∈ p → c ≠ start → 0 <= c.1 < width (board gs) ∧ 0 <= c.2 < height (board gs).
Proof.
  intros Hne Hp.
  destruct (find_path_correct start goal gs Hne) as (r & Hr & Hout).
  rewrite Hp in Hr. injection Hr as <-. destruct Hout as [Hw Hmin].
  split; [|split].
  - destruct (decide (NoDup p)) as [|Hnd]; [done|].
    destruct (walk_shorter _ start goal p Hw Hnd) as (q & Hq & Hlt).
    pose proof (Hmin q Hq). lia.
  - pose proof (walk_manhattan _ start goal p Hw). lia.
  - intros c Hc Hcs. apply is_safe_true_bounds.
    exact (walk_cells_safe _ start goal p c Hw Hc Hcs).
Qed.

Lemma find_path_simple_witness :
  NoDup [(1, 1); (0, 1); (0, 2)] ∧
  manhattan_distance (1, 1) (0, 2) + 1 <= Z.of_nat (length [(1, 1); (0, 1); (0, 2)]) ∧
  ∀ c, c ∈ [(1, 1); (0, 1); (0, 2)] → c ≠ (1, 1) →
    0 <= c.1 < width (board gs_tie) ∧ 0 <= c.2 < height (board gs_tie).
Proof.
  apply (find_path_simple (1, 1) (0, 2) gs_tie).
  - simpl. discriminate.
  - vm_compute. reflexivity.
Defined.



(** ** [is_safe] and the list of snakes *)

(** X8. [is_safe] does not depend on the order of the snakes of the
    snapshot: any permutation of [game_state["board"]["snakes"]] gives
    the same verdict, when the agent has a body. *)
Theorem is_safe_snakes_perm (x y : Z) (gs : GameState) (ss : list Snake) :
  body (you gs) ≠ [] → ss ≡ₚ snakes (board gs) →
  is_safe x y (with_snakes gs ss) = is_safe x y gs.
Proof.
  intros Hne Hp. rewrite (is_safe_unfold x y (with_snakes gs ss)), (is_safe_unfold x y gs).
  change (width (board (with_snakes gs ss))) with (width (board gs)).
  change (height (board (with_snakes gs ss))) with (height (board gs)).
  change (you (with_snakes gs ss)) with (you gs).
  change (snakes (board (with_snakes gs ss))) with ss.
  destruct (_ || _ || _ || _); [done|]. destruct (existsb _ _); [done|].
  destruct (check_other_snakes_spec x y (with_snakes gs ss) ss Hne) as (b1 & Hb1 & Hi1).
  destruct (check_other_snakes_spec x y gs (snakes (board gs)) Hne) as (b2 & Hb2 & Hi2).
  rewrite Hb1, Hb2. f_equal.
  destruct b1, b2; [done| | |done]; exfalso.
  - destruct (proj1 Hi2 eq_refl) as (s & Hs & Hu).
    assert (E : true = false); [|discriminate].
    apply Hi1. exists s. split; [by rewrite Hp|exact Hu].
  - destruct (proj1 Hi1 eq_refl) as (s & Hs & Hu).
    assert (E : true = false); [|discriminate].
    apply Hi2. exists s. split; [by rewrite <- Hp|exact Hu].
Qed.

Lemma is_safe_snakes_perm_witness :
  is_safe 0 1 (with_snakes gs_chase (reverse (snakes (board gs_chase)))) = is_safe 0 1 gs_chase.
Proof.
  apply is_safe_snakes_perm.
  - simpl. discriminate.
  - apply reverse_Permutation.
Defined.

(** X9. Adding a snake to the snapshot never turns an unsafe cell into a
    safe one, when the agent has a body. *)
Theorem is_safe_add_snake (x y : Z) (gs : GameState) (s : Snake) :
  body (you gs) ≠ [] → is_safe x y gs = Ret false →
  is_safe x y (with_snakes gs (s :: snakes (board gs))) = Ret false.
Proof.
  intros Hne. rewrite (is_safe_unfold x y (with_snakes gs (s :: snakes (board gs)))),
    (is_safe_unfold x y gs).
  change (width (board (with_snakes gs (s :: snakes (board gs))))) with (width (board gs)).
  change (height (board (with_snakes gs (s :: snakes (board gs))))) with (height (board gs)).
  change (you (with_snakes gs (s :: snakes (board gs)))) with (you gs).
  change (snakes (board (with_snakes gs (s :: snakes (board gs))))) with (s :: snakes (board gs)).
  destruct (_ || _ || _ || _); [done|]. destruct (existsb _ _); [done|].
  destruct (check_other_snakes_spec x y (with_snakes gs (s :: snakes (board gs)))
              (s :: snakes (board gs)) Hne) as (b1 & Hb1 & Hi1).
  destruct (check_other_snakes_spec x y gs (snakes (board gs)) Hne) as (b2 & Hb2 & Hi2).
  rewrite Hb1, Hb2. intros [= ->]. f_equal.
  apply Hi1. destruct (proj1 Hi2 eq_refl) as (s' & Hs' & Hu).
  exists s'. split; [by right|exact Hu].
Qed.

Lemma is_safe_add_snake_witness :
  is_safe 0 1 gs_chase = Ret false ∧
  is_safe 0 1 (with_snakes gs_chase (mkSnake "c" [(4, 4)] 100 :: snakes (board gs_chase)))
    = Ret false.
Proof.
  assert (H : is_safe 0 1 gs_chase = Ret false) by (vm_compute; reflexivity).
  split; [exact H|]. apply is_safe_add_snake; [simpl; discriminate|exact H].
Defined.

(** ** [get_safe_moves] and [move] *)

(** X10. When [get_safe_moves] gives a non-empty list [sm], the move
    returned by [move], for any random draw, is a member of [sm]: the
    agent has a neck, the move's offset does not lead onto it, and the
    cell it leads to passes [is_safe]. *)
Theorem move_in_safe_moves (r : nat) (gs : GameState) (sm : list string) (m : string) :
  get_safe_moves gs = Ret sm → sm ≠ [] → move r gs = Ret m →
  m ∈ sm ∧ ∃ my_head my_neck rest d, body (you gs) = my_head :: my_neck :: rest ∧
    (m, d) ∈ DIRECTIONS ∧ step my_head d ≠ my_neck ∧
    is_safe (step my_head d).1 (step my_head d).2 gs = Ret true.
Proof.
  intros Hsm Hne Hm.
  destruct (get_safe_moves_ret gs (get_safe_moves_len gs sm Hsm))
    as (hd & nk & rest & ms & Hb & Hms & _ & Hall).
  rewrite Hsm in Hms. injection Hms as <-.
  assert (Hin : m ∈ sm).
  { rewrite (move_unfold r gs sm Hsm Hne) in Hm.
    assert (Htail : move_tail r gs sm = Ret m → m ∈ sm).
    { unfold move_tail. intros Ht. apply bind_Ret_inv in Ht as (cm & Hc & Ht).
      cbv beta in Ht. destruct cm as [m'|].
      - injection Ht as <-. unfold chase_smaller_snake in Hc.
        apply bind_Ret_inv in Hc as (h & _ & Hc). by apply chase_loop_some_in in Hc.
      - by apply (random_choice_in r). }
    destruct (food_tier_enabled gs); [|by apply Htail].
    apply bind_Ret_inv in Hm as (fm & Hf & Hm). cbv beta in Hm. destruct fm as [m'|].
    - injection Hm as <-. by apply (seek_food_some_in gs sm).
    - by apply Htail. }
  split; [done|]. destruct (Hall m Hin) as (d & Hd & Hmb & Hs).
  exists hd, nk, rest, d. split; [done|]. split; [done|].
  split; [by apply (moving_backwards_neck m d hd nk)|exact Hs].
Qed.

Lemma move_in_safe_moves_witness :
  "left"%string ∈ ["up"; "left"; "right"]%string ∧
  ∃ my_head my_neck rest d, body (you gs_food) = my_head :: my_neck :: rest ∧
    ("left"%string, d) ∈ DIRECTIONS ∧ step my_head d ≠ my_neck ∧
    is_safe (step my_head d).1 (step my_head d).2 gs_food = Ret true.
Proof.
  apply (move_in_safe_moves 0 gs_food ["up"; "left"; "right"]%string "left"%string).
  - vm_compute. reflexivity.
  - discriminate.
  - vm_compute. reflexivity.
Defined.

(** X11. When a food item lies under the agent's head, the food tier
    yields no move: that item is the closest food (distance 0), the path
    to it is the head alone, and a path of one cell gives no move. *)
Theorem seek_food_under_head (gs : GameState) (sm : list string) (my_head : coord)
    (tl : list coord) :
  body (you gs) = my_head :: tl → my_head ∈ food (board gs) → seek_food gs sm = Ret None.
Proof.
  intros Hb Hf.
  destruct (seek_food_facts gs sm ltac:(by rewrite Hb)) as [_ H1].
  destruct H1 as (head & tl' & l1 & c & l2 & p & Hb' & Hfood & H1 & H2 & Hp & Hs).
  { intros E. rewrite E in Hf. by apply elem_of_nil in Hf. }
  rewrite Hb in Hb'. injection Hb' as <- <-.
  assert (Hc : c = my_head).
  { rewrite Hfood in Hf. apply elem_of_app in Hf as [Hf|Hf].
    - specialize (H1 my_head Hf). unfold manhattan_distance in H1. lia.
    - apply elem_of_cons in Hf as [Hf|Hf]; [done|].
      specialize (H2 my_head Hf). destruct c as [cx cy], my_head as [hx hy].
      unfold manhattan_distance in H2. simpl in H2. f_equal; lia. }
  subst c. rewrite find_path_self in Hp. injection Hp as <-. by rewrite Hs.
Qed.

Lemma seek_food_under_head_witness :
  seek_food gs_food_head ["up"; "left"; "right"]%string = Ret None.
Proof.
  apply (seek_food_under_head gs_food_head _ (1, 1) [(1, 0)]).
  - reflexivity.
  - unfold gs_food_head. simpl. right. left.
Defined.

(** X12. An agent with fewer than two segments has no neck:
    [get_safe_moves] raises on [body[1]], and so does [move], whatever
    the random draw. *)
Theorem move_short_body (r : nat) (gs : GameState) :
  (length (body (you gs)) < 2)%nat → get_safe_moves gs = Raise ∧ move r gs = Raise.
Proof.
  intros H. assert (Hg : get_safe_moves gs = Raise).
  { unfold get_safe_moves, py_index.
    destruct (body (you gs)) as [|a [|b rest]]; simpl in *; [done|done|lia]. }
  split; [done|]. unfold move. by rewrite Hg.
Qed.

Lemma move_short_body_witness : get_safe_moves gs_short = Raise ∧ move 0 gs_short = Raise.
Proof. apply move_short_body. simpl. lia. Defined.

(** X13. When the neck is the cell one step of direction [mv0] from the
    head, [get_safe_moves] lists, in the order up, down, left, right,
    exactly the directions other than [mv0] whose cell passes
    [is_safe]. *)
Theorem get_safe_moves_adjacent_neck (gs : GameState) (my_head : coord) (rest : list coord)
    (mv0 : string) (d0 : Z * Z) :
  body (you gs) = my_head :: step my_head d0 :: rest → (mv0, d0) ∈ DIRECTIONS →
  get_safe_moves gs =
  Ret (map fst (List.filter
                  (λ md, negb (String.eqb md.1 mv0) && is_safe_b gs (step my_head md.2))
                  DIRECTIONS)).
Proof.
  intros Hb Hd. assert (Hne : body (you gs) ≠ []) by (by rewrite Hb).
  unfold get_safe_moves, py_index. rewrite Hb. destruct my_head as [hx hy].
  apply directions_cases in Hd as [[-> ->]|[[-> ->]|[[-> ->]|[-> ->]]]];
    unfold DIRECTIONS; simpl; unfold moving_backwards, is_safe_b, step; simpl;
    repeat match goal with |- context [Z.ltb ?a ?b] => destruct (Z.ltb_spec a b); try lia end;
    simpl;
    repeat match goal with |- context [is_safe ?a ?b gs] =>
      let b' := fresh "b" in let E := fresh "E" in
      destruct (is_safe_ret a b gs Hne) as [b' E]; rewrite E end;
    simpl; repeat match goal with b : bool |- _ => destruct b end; reflexivity.
Qed.

Lemma get_safe_moves_adjacent_neck_witness :
  get_safe_moves gs_tie =
  Ret (map fst (List.filter
                  (λ md, negb (String.eqb md.1 "down") && is_safe_b gs_tie (step (1, 1) md.2))
                  DIRECTIONS)).
Proof.
  apply (get_safe_moves_adjacent_neck gs_tie (1, 1) [] "down"%string (0, -1)).
  - reflexivity.
  - unfold DIRECTIONS. simpl. right. left.
Defined.

(** X14. When the neck is on the head (a stacked body, as at the start
    of a game), no direction counts as moving backwards:
    [get_safe_moves] lists, in the order up, down, left, right, every
    direction whose cell passes [is_safe]. *)
Theorem get_safe_moves_stacked (gs : GameState) (my_head : coord) (rest : list coord) :
  body (you gs) = my_head :: my_head :: rest →
  get_safe_moves gs =
  Ret (map fst (List.filter (λ md, is_safe_b gs (step my_head md.2)) DIRECTIONS)).
Proof.
  intros Hb. assert (Hne : body (you gs) ≠ []) by (by rewrite Hb).
  unfold get_safe_moves, py_index. rewrite Hb. destruct my_head as [hx hy].
  unfold DIRECTIONS; simpl. unfold moving_backwards, is_safe_b, step; simpl.
  rewrite !Z.ltb_irrefl. simpl.
  repeat match goal with |- context [is_safe ?a ?b gs] =>
    let b' := fresh "b" in let E := fresh "E" in
    destruct (is_safe_ret a b gs Hne) as [b' E]; rewrite E end;
  simpl; repeat match goal with b : bool |- _ => destruct b end; reflexivity.
Qed.

Lemma get_safe_moves_stacked_witness :
  get_safe_moves gs_restack =
  Ret (map fst (List.filter (λ md, is_safe_b gs_restack (step (1, 4) md.2)) DIRECTIONS)).
Proof. apply (get_safe_moves_stacked gs_restack (1, 4) [(1, 4)]). reflexivity. Defined.

(** ** [chase_smaller_snake] *)

(** X15. When no snake of the snapshot is strictly shorter than the
    agent, the chase tier yields no move and computes no path. The
    agent's own entry in the list of snakes is never a target, since its
    length is not less than itself. *)
Theorem chase_no_shorter_snake (gs : GameState) (sm : list string) :
  body (you gs) ≠ [] →
  (∀ s, s ∈ snakes (board gs) → (length (body (you gs)) <= length (body s))%nat) →
  chase_smaller_snake gs sm = Ret None.
Proof.
  intros Hne Hall. destruct (body (you gs)) as [|hd tl] eqn:Eb; [done|].
  rewrite (chase_smaller_snake_unfold gs sm hd tl Eb), Eb.
  induction (snakes (board gs)) as [|s ss IH]; simpl; [done|].
  destruct (Nat.ltb_spec (length (body s)) (S (length tl))) as [Hlt|_].
  - pose proof (Hall s ltac:(by left)) as Hs. simpl in Hs. lia.
  - apply IH. intros s' Hs'. apply Hall. by right.
Qed.

Lemma chase_no_shorter_snake_witness : chase_smaller_snake gs_tie ["up"]%string = Ret None.
Proof.
  apply chase_no_shorter_snake.
  - simpl. discriminate.
  - intros s Hs. apply elem_of_cons in Hs as [->|Hs]; [simpl; lia|].
    by apply elem_of_nil in Hs.
Defined.
